(** * thriftcli: the IDL extractor and the request-literal converter

    A shallow embedding of [thrift_cli/thrift_parser.py] and
    [thriftcli/java_thrift_request_body_converter.py].

    Python strings are [string]; Python integers are [Z]; dictionaries are
    [gmap string _]; sets are [gset string]; a raised exception is the left
    injection of a sum. *)

From Stdlib Require Import ZArith String Ascii List Bool Lia.
From stdpp Require Import base option list gmap strings.

Import ListNotations.

Local Open Scope string_scope.
Local Open Scope Z_scope.

(** ** Python string primitives *)

Module PyStr.

(** The exceptions the modelled code can raise.  [RecursionError] is the
    error of the interpreter when the depth of calls passes its bound
    ([RuntimeError], maximum recursion depth exceeded); it is no
    [ValueError]. *)
Inductive exn : Type :=
| ValueError
| KeyError (key : string)
| AttributeError
| IOError
| RecursionError.

Definition result (A : Type) : Type := exn + A.

Definition len (s : string) : Z := Z.of_nat (String.length s).

Fixpoint take (n : nat) (s : string) : string :=
  match n, s with
  | S n', String a s' => String a (take n' s')
  | _, _ => EmptyString
  end.

Fixpoint drop (n : nat) (s : string) : string :=
  match n, s with
  | S n', String _ s' => drop n' s'
  | _, _ => s
  end.

(** Index normalisation of a slice bound: a negative bound counts from
    the end, and the outcome is clamped to [0, len]. *)
Definition clamp (n i : Z) : Z :=
  let j := if i <? 0 then i + n else i in
  Z.max 0 (Z.min n j).

(** [s[lo:hi]] *)
Definition slice (s : string) (lo hi : Z) : string :=
  let lo' := clamp (len s) lo in
  let hi' := clamp (len s) hi in
  take (Z.to_nat (hi' - lo')) (drop (Z.to_nat lo') s).

(** [s[lo:]] *)
Definition slice_from (s : string) (lo : Z) : string :=
  drop (Z.to_nat (clamp (len s) lo)) s.

(** First and last position of a character. *)
Fixpoint first_pos (c : ascii) (s : string) : option nat :=
  match s with
  | EmptyString => None
  | String a s' =>
      if Ascii.eqb a c then Some O else option_map S (first_pos c s')
  end.

Fixpoint last_pos (c : ascii) (s : string) : option nat :=
  match s with
  | EmptyString => None
  | String a s' =>
      match last_pos c s' with
      | Some i => Some (S i)
      | None => if Ascii.eqb a c then Some O else None
      end
  end.

(** [s.index(c)] and [s.rindex(c)] raise [ValueError] when [c] is absent. *)
Definition index (s : string) (c : ascii) : result Z :=
  match first_pos c s with
  | Some i => inr (Z.of_nat i)
  | None => inl ValueError
  end.

Definition rindex (s : string) (c : ascii) : result Z :=
  match last_pos c s with
  | Some i => inr (Z.of_nat i)
  | None => inl ValueError
  end.

(** [s.find(c)] and [s.find(c, lo, hi)] answer [-1] when [c] is absent. *)
Definition find (s : string) (c : ascii) : Z :=
  match first_pos c s with
  | Some i => Z.of_nat i
  | None => -1
  end.

Definition find_in (s : string) (c : ascii) (lo hi : Z) : Z :=
  let lo' := clamp (len s) lo in
  match first_pos c (slice s lo hi) with
  | Some i => lo' + Z.of_nat i
  | None => -1
  end.

(** [c in s] for a one-character [c]. *)
Definition mem (c : ascii) (s : string) : bool :=
  match first_pos c s with Some _ => true | None => false end.

(** [enumerate(s)] *)
Fixpoint enumerate_from (i : Z) (s : string) : list (Z * ascii) :=
  match s with
  | EmptyString => []
  | String a s' => (i, a) :: enumerate_from (i + 1) s'
  end.

Definition enumerate (s : string) : list (Z * ascii) := enumerate_from 0 s.

(** [sep.join(l)] *)
Fixpoint join (sep : string) (l : list string) : string :=
  match l with
  | [] => EmptyString
  | [x] => x
  | x :: l' => x ++ sep ++ join sep l'
  end.

End PyStr.

Import PyStr.

(** ** The parameter-list splitter *)

Module Splitter.

(** The three locals of the loop in [_split_fields_string]. *)
Record state : Type := mkState {
  field_strings : list string;
  bracket_depth : Z;
  last_index : Z
}.

Definition init : state := mkState [] 0 0.

(** One iteration of the loop of
    [ThriftParser.split_fields_string(fields_string, opening, closing, delim)]. *)
Definition step (fields_string opening closing : string) (delim : ascii)
    (st : state) (ic : Z * ascii) : state :=
  let '(i, char) := ic in
  if mem char opening then
    mkState (field_strings st) (bracket_depth st + 1) (last_index st)
  else if mem char closing then
    mkState (field_strings st) (bracket_depth st - 1) (last_index st)
  else if Ascii.eqb char delim && (bracket_depth st =? 0) then
    mkState (field_strings st ++ [slice fields_string (last_index st) i])
            (bracket_depth st) (i + 1)
  else st.

Definition finish (fields_string : string) (st : state) : list string :=
  field_strings st ++ [slice_from fields_string (last_index st)].

(** Modelled from the spec: the four-argument
    [ThriftParser.split_fields_string] that [convert] calls lives in
    [thriftcli/thrift_parser.py], which is not among the sources.  The spec
    describes it as the splitter of [_split_fields_string] with the depth
    counter following every opening and every closing character jointly,
    and a delimiter separating only at depth zero. *)
Definition split_fields_string (fields_string opening closing : string)
    (delim : ascii) : list string :=
  finish fields_string
    (fold_left (step fields_string opening closing delim)
               (enumerate fields_string) init).

(** One iteration of the loop of [ThriftParser._split_fields_string]. *)
Definition _step (fields_string : string) (st : state) (ic : Z * ascii)
    : state :=
  let '(i, char) := ic in
  if Ascii.eqb char "<" then
    mkState (field_strings st) (bracket_depth st + 1) (last_index st)
  else if Ascii.eqb char ">" then
    mkState (field_strings st) (bracket_depth st - 1) (last_index st)
  else if Ascii.eqb char "," && (bracket_depth st =? 0) then
    mkState (field_strings st ++ [slice fields_string (last_index st) i])
            (bracket_depth st) (i + 1)
  else st.

(** [ThriftParser._split_fields_string(fields_string)] *)
Definition _split_fields_string (fields_string : string) : list string :=
  finish fields_string
    (fold_left (_step fields_string) (enumerate fields_string) init).

(** What the loop computes, read off the text from left to right: [cur]
    is the piece under construction and [depth] the counter. *)
Fixpoint pieces (opening closing : string) (delim : ascii) (depth : Z)
    (cur : string) (s : string) : list string :=
  match s with
  | EmptyString => [cur]
  | String c s' =>
      if mem c opening then
        pieces opening closing delim (depth + 1) (cur ++ String c "") s'
      else if mem c closing then
        pieces opening closing delim (depth - 1) (cur ++ String c "") s'
      else if Ascii.eqb c delim && (depth =? 0) then
        cur :: pieces opening closing delim depth "" s'
      else pieces opening closing delim depth (cur ++ String c "") s'
  end.

End Splitter.

Import Splitter.

(** ** A backtracking matcher for the patterns of [ThriftParser.__init__]

    The patterns are Python [re] patterns compiled with [re.MULTILINE].  They
    only repeat character classes and only make groups optional, so the
    matcher below covers that fragment: it tries alternatives in the order
    [re] does (greedy repetition longest first, lazy repetition shortest
    first, an optional part taken before it is left out) and reports the
    first success. *)

Module Re.

Inductive regex : Type :=
| Eps
| Bol                                         (* ^ *)
| Lit (s : string)                            (* literal text *)
| Cls (c : ascii -> bool)                     (* one character of a class *)
| Rep (greedy : bool) (min : nat) (c : ascii -> bool)   (* c*, c+, c*? *)
| Opt (r : regex)                             (* r? *)
| Alt (r1 r2 : regex)                         (* r1|r2 *)
| Grp (n : nat) (r : regex)                   (* capturing group n *)
| Seq (r1 r2 : regex).

Definition cat (l : list regex) : regex := fold_right Seq Eps l.

(** A position in the subject: the character before it and what follows. *)
Record pos : Type := mkPos { prev : option ascii; rest : string }.

Definition caps : Type := list (nat * string).

Definition nl : ascii := "010"%char.

(** [^] under MULTILINE: at the start of the subject or just after a
    newline. *)
Definition at_bol (p : pos) : bool :=
  match prev p with
  | None => true
  | Some a => Ascii.eqb a nl
  end.

Fixpoint eat (lit : string) (p : pos) : option pos :=
  match lit with
  | EmptyString => Some p
  | String c lit' =>
      match rest p with
      | String a s' =>
          if Ascii.eqb a c then eat lit' (mkPos (Some a) s') else None
      | EmptyString => None
      end
  end.

Definition orelse {R : Type} (x y : option R) : option R :=
  match x with Some _ => x | None => y end.

Fixpoint rep_greedy {R : Type} (c : ascii -> bool) (min : nat)
    (pv : option ascii) (s : string) (k : pos -> option R) : option R :=
  let stop := match min with O => k (mkPos pv s) | S _ => None end in
  match s with
  | String a s' =>
      if c a then orelse (rep_greedy c (Nat.pred min) (Some a) s' k) stop
      else stop
  | EmptyString => stop
  end.

Fixpoint rep_lazy {R : Type} (c : ascii -> bool) (min : nat)
    (pv : option ascii) (s : string) (k : pos -> option R) : option R :=
  let stop := match min with O => k (mkPos pv s) | S _ => None end in
  match s with
  | String a s' =>
      if c a then orelse stop (rep_lazy c (Nat.pred min) (Some a) s' k)
      else stop
  | EmptyString => stop
  end.

(** The text between two positions of one subject. *)
Definition consumed (p p' : pos) : string :=
  take (String.length (rest p) - String.length (rest p')) (rest p).

Fixpoint run {R : Type} (r : regex) (p : pos) (cs : caps)
    (k : pos -> caps -> option R) : option R :=
  match r with
  | Eps => k p cs
  | Bol => if at_bol p then k p cs else None
  | Lit s => match eat s p with Some p' => k p' cs | None => None end
  | Cls c =>
      match rest p with
      | String a s' => if c a then k (mkPos (Some a) s') cs else None
      | EmptyString => None
      end
  | Rep true min c => rep_greedy c min (prev p) (rest p) (fun p' => k p' cs)
  | Rep false min c => rep_lazy c min (prev p) (rest p) (fun p' => k p' cs)
  | Opt r1 => orelse (run r1 p cs k) (k p cs)
  | Alt r1 r2 => orelse (run r1 p cs k) (run r2 p cs k)
  | Grp n r1 => run r1 p cs (fun p' cs' => k p' ((n, consumed p p') :: cs'))
  | Seq r1 r2 => run r1 p cs (fun p' cs' => run r2 p' cs' k)
  end.

(** [pattern.match] at one position. *)
Definition match_at (r : regex) (p : pos) : option (pos * caps) :=
  run r p [] (fun p' cs => Some (p', cs)).

(** The text of group [n]; [findall] reports a group that took no part in
    the match as the empty string. *)
Fixpoint group (cs : caps) (n : nat) : string :=
  match cs with
  | [] => EmptyString
  | (m, s) :: cs' => if Nat.eqb m n then s else group cs' n
  end.

(** The successive non-overlapping matches, leftmost first.  [skip] counts
    the characters of the last match still to be passed over. *)
Fixpoint scan (r : regex) (skip : nat) (pv : option ascii) (s : string)
    {struct s} : list caps :=
  match skip with
  | S skip' =>
      match s with
      | String a s' => scan r skip' (Some a) s'
      | EmptyString => []
      end
  | O =>
      match match_at r (mkPos pv s) with
      | Some (p', cs) =>
          match s with
          | String a s' =>
              cs :: scan r (Nat.pred (String.length s - String.length (rest p')))
                         (Some a) s'
          | EmptyString => [cs]
          end
      | None =>
          match s with
          | String a s' => scan r O (Some a) s'
          | EmptyString => []
          end
      end
  end.

Definition matches (r : regex) (s : string) : list caps := scan r O None s.

(** Character classes. *)
Definition between (lo hi : nat) (a : ascii) : bool :=
  let n := nat_of_ascii a in Nat.leb lo n && Nat.leb n hi.

Definition is_digit : ascii -> bool := between 48 57.                (* \d *)
Definition is_alpha (a : ascii) : bool := between 65 90 a || between 97 122 a.
Definition is_word (a : ascii) : bool :=                             (* \w *)
  is_alpha a || is_digit a || Ascii.eqb a "_".
Definition is_space (a : ascii) : bool :=                            (* \s *)
  between 9 13 a || Ascii.eqb a " ".
Definition one_of (set : string) (a : ascii) : bool := mem a set.
Definition none_of (set : string) (a : ascii) : bool := negb (mem a set).

(** What a successful run of the matcher over [r] can do: where it can end
    and what it can have captured. *)
Fixpoint reach (r : regex) (p : pos) (cs : caps) (p' : pos) (cs' : caps)
    : Prop :=
  match r with
  | Eps => p' = p /\ cs' = cs
  | Bol => at_bol p = true /\ p' = p /\ cs' = cs
  | Lit s => eat s p = Some p' /\ cs' = cs
  | Cls c =>
      exists a s', rest p = String a s' /\ c a = true
                   /\ p' = mkPos (Some a) s' /\ cs' = cs
  | Rep _ min c =>
      (exists run, rest p = run ++ rest p' /\ (min <= String.length run)%nat)
      /\ cs' = cs
  | Opt r1 => reach r1 p cs p' cs' \/ (p' = p /\ cs' = cs)
  | Alt r1 r2 => reach r1 p cs p' cs' \/ reach r2 p cs p' cs'
  | Grp n r1 =>
      exists cs1, reach r1 p cs p' cs1 /\ cs' = (n, consumed p p') :: cs1
  | Seq r1 r2 =>
      exists p1 cs1, reach r1 p cs p1 cs1 /\ reach r2 p1 cs1 p' cs'
  end.

End Re.

Import Re.

(** ** The data holders

    Modelled from the spec: the classes [ThriftStruct], [ThriftStruct.Field],
    [ThriftService] and [ThriftService.Endpoint] are declared in
    [thrift_struct.py] and [thrift_service.py], which are not among the
    sources.  Each record holds the arguments of the constructor call the
    parser makes, under the names the parser reads them back with ([name],
    [fields], [endpoints]). *)

Module ThriftStruct.

Module Field.
Record t : Type := mk {
  index : string;
  field_type : string;
  name : string;
  oneway : bool;
  default : option string
}.
End Field.

Record t : Type := mk {
  name : string;
  fields : gmap string Field.t
}.

End ThriftStruct.

Module ThriftService.

Module Endpoint.
Record t : Type := mk {
  return_type : string;
  name : string;
  fields : gmap string ThriftStruct.Field.t;
  oneway : string
}.
End Endpoint.

Record t : Type := mk {
  name : string;
  endpoints : gmap string Endpoint.t
}.

End ThriftService.

(** ** Dictionaries *)

Module Dict.

(** [{k: v for (k, v) in l}]: a later pair overwrites an earlier one. *)
Definition of_list {V : Type} (l : list (string * V)) : gmap string V :=
  fold_left (fun m kv => <[kv.1 := kv.2]> m) l ∅.

(** [d[k]] *)
Definition get {V : Type} (d : gmap string V) (k : string) : result V :=
  match d !! k with
  | Some v => inr v
  | None => inl (KeyError k)
  end.

(** A comprehension whose value expression can raise: the dictionary is
    built when no value raises, and the exception comes out otherwise. *)
Definition collect {V : Type} (d : gmap string (result V))
    : result (gmap string V) :=
  map_fold (fun k x acc =>
              match acc, x with
              | inl e, _ => inl e
              | inr _, inl e => inl e
              | inr m, inr v => inr (<[k := v]> m)
              end) (inr ∅) d.

End Dict.

(** ** [ThriftParser] *)

Module ThriftParser.

Module Result.
Record t : Type := mk {
  structs : gmap string ThriftStruct.t;
  services : gmap string ThriftService.t;
  enums : gset string
}.
End Result.

(** The attributes of a parser object that [parse] assigns. *)
Record t : Type := mk {
  _thrift_path : option string;
  _thrift_content : option string;
  _result : option Result.t
}.

(** [ThriftParser()] *)
Definition __init__ : t := mk None None None.

(** [[\r\t ]] *)
Definition blank : ascii -> bool :=
  one_of (String "013" (String "009" " ")).

(** [^([\r\t ]*?struct (\w+)[^}]+})] *)
Definition structs_regex : regex :=
  cat [Bol; Grp 1 (cat [Rep false 0 blank; Lit "struct ";
                        Grp 2 (Rep true 1 is_word);
                        Rep true 1 (none_of "}"); Lit "}"])].

(** [^([\r\t ]*?service (\w+)[^}]+})] *)
Definition services_regex : regex :=
  cat [Bol; Grp 1 (cat [Rep false 0 blank; Lit "service ";
                        Grp 2 (Rep true 1 is_word);
                        Rep true 1 (none_of "}"); Lit "}"])].

(** [^[\r\t ]*?enum (\w+)[^}]+}] *)
Definition enums_regex : regex :=
  cat [Bol; Rep false 0 blank; Lit "enum ";
       Grp 1 (Rep true 1 is_word); Rep true 1 (none_of "}"); Lit "}"].

(** The endpoint pattern: line start, blanks, an optional group 1
    [oneway], white space, group 2 any run without a newline, white space,
    group 3 a word, an opening parenthesis, group 4 a run of
    [[a-zA-Z0-9: ,<>]], a closing parenthesis. *)
Definition endpoints_regex : regex :=
  cat [Bol; Rep true 0 blank; Opt (Grp 1 (Lit "oneway"));
       Rep true 0 is_space;
       Grp 2 (Rep true 0 (none_of (String nl "")));
       Rep true 1 is_space;
       Grp 3 (Rep true 1 is_word);
       Lit "(";
       Grp 4 (Rep true 0 (fun a => is_alpha a || is_digit a
                                   || one_of ": ,<>" a));
       Lit ")"].

(** [^[\r\t ]*([\d+]):\s*(optional|required)?\s*([^\n=]+)?\s+(\w+)(?:\s*=\s*([^,\s]+))?[,|\n]]:
    the first group is the class [[\d+]], one character that is a digit
    or a plus sign. *)
Definition fields_regex : regex :=
  cat [Bol; Rep true 0 blank;
       Grp 1 (Cls (fun a => is_digit a || Ascii.eqb a "+"));
       Lit ":";
       Rep true 0 is_space;
       Opt (Grp 2 (Alt (Lit "optional") (Lit "required")));
       Rep true 0 is_space;
       Opt (Grp 3 (Rep true 1 (none_of (String nl "="))));
       Rep true 1 is_space;
       Grp 4 (Rep true 1 is_word);
       Opt (cat [Rep true 0 is_space; Lit "="; Rep true 0 is_space;
                 Grp 5 (Rep true 1 (fun a => negb (Ascii.eqb a ",")
                                             && negb (is_space a)))]);
       Cls (one_of (String "," (String "|" (String nl ""))))].

(** [pattern.findall(s)] for the patterns above: the tuple of the groups
    of every match. *)
Definition findall1 (r : regex) (s : string) : list string :=
  map (fun cs => group cs 1) (matches r s).

Definition findall2 (r : regex) (s : string) : list (string * string) :=
  map (fun cs => (group cs 1, group cs 2)) (matches r s).

Definition findall4 (r : regex) (s : string)
    : list (string * string * string * string) :=
  map (fun cs => (group cs 1, group cs 2, group cs 3, group cs 4))
      (matches r s).

Definition field_match : Type :=
  (string * string * string * string * string)%type.

Definition findall5 (r : regex) (s : string) : list field_match :=
  map (fun cs => (group cs 1, group cs 2, group cs 3, group cs 4, group cs 5))
      (matches r s).

Definition _construct_field_from_field_match (m : field_match)
    : ThriftStruct.Field.t :=
  let '(index, oneway, return_type, name, default) := m in
  let oneway := String.eqb oneway "oneway" in
  let default :=
    if (len default =? 0) then None else Some default in
  ThriftStruct.Field.mk index return_type name oneway default.

Definition by_field_name (fields : list ThriftStruct.Field.t)
    : gmap string ThriftStruct.Field.t :=
  Dict.of_list (map (fun field => (ThriftStruct.Field.name field, field))
                    fields).

Definition _parse_struct_definitions (content : string)
    : gmap string string :=
  Dict.of_list (map (fun '(definition, name) => (name, definition))
                    (findall2 structs_regex content)).

Definition _parse_fields_from_struct_definition (definition : string)
    : gmap string ThriftStruct.Field.t :=
  let field_matches := findall5 fields_regex definition in
  let fields := map _construct_field_from_field_match field_matches in
  by_field_name fields.

Definition _parse_structs (content : string)
    : gmap string ThriftStruct.t :=
  let definitions_by_name := _parse_struct_definitions content in
  let fields_by_name :=
    _parse_fields_from_struct_definition <$> definitions_by_name in
  map_imap (fun name fields => Some (ThriftStruct.mk name fields))
           fields_by_name.

Definition _parse_fields_from_fields_string (fields_string : string)
    : list ThriftStruct.Field.t :=
  let field_strings := _split_fields_string fields_string in
  let field_matches :=
    map (fun field_string =>
           findall5 fields_regex (field_string ++ String nl ""))
        field_strings in
  let field_matches :=
    flat_map (fun field_match =>
                match field_match with
                | [] => []
                | first :: _ => [first]
                end) field_matches in
  map _construct_field_from_field_match field_matches.

(** The transposition [zip] of the rows, unpacked into four names: with
    no row there is nothing to unpack and the assignment raises
    [ValueError]. *)
Definition unzip4 {A B C D : Type} (rows : list (A * B * C * D))
    : result (list A * list B * list C * list D) :=
  match rows with
  | [] => inl ValueError
  | _ => inr (map (fun r => r.1.1.1) rows, map (fun r => r.1.1.2) rows,
              map (fun r => r.1.2) rows, map (fun r => r.2) rows)
  end.

Fixpoint zip4 {A B C D : Type} (la : list A) (lb : list B) (lc : list C)
    (ld : list D) : list (A * B * C * D) :=
  match la, lb, lc, ld with
  | a :: la', b :: lb', c :: lc', d :: ld' =>
      (a, b, c, d) :: zip4 la' lb' lc' ld'
  | _, _, _, _ => []
  end.

Definition _parse_endpoints_from_service_definition (definition : string)
    : result (gmap string ThriftService.Endpoint.t) :=
  let endpoint_matches := findall4 endpoints_regex definition in
  match unzip4 endpoint_matches with
  | inl e => inl e
  | inr (oneways, return_types, names, fields_strings) =>
      let fields_lists :=
        map _parse_fields_from_fields_string fields_strings in
      let fields_dicts := map by_field_name fields_lists in
      let endpoints :=
        map (fun '(oneway, return_type, name, fields) =>
               ThriftService.Endpoint.mk return_type name fields oneway)
            (zip4 oneways return_types names fields_dicts) in
      inr (Dict.of_list
             (map (fun endpoint =>
                     (ThriftService.Endpoint.name endpoint, endpoint))
                  endpoints))
  end.

Definition _parse_service_definitions (content : string)
    : gmap string string :=
  Dict.of_list (map (fun '(definition, name) => (name, definition))
                    (findall2 services_regex content)).

Definition _parse_services (content : string)
    : result (gmap string ThriftService.t) :=
  let definitions_by_name := _parse_service_definitions content in
  match Dict.collect (_parse_endpoints_from_service_definition
                        <$> definitions_by_name) with
  | inl e => inl e
  | inr endpoints_by_name =>
      inr (map_imap (fun name endpoints =>
                       Some (ThriftService.mk name endpoints))
                    endpoints_by_name)
  end.

Definition _parse_enums (content : string) : gset string :=
  list_to_set (findall1 enums_regex content).


(** The three parsers run over the loaded text. *)
Definition parse_content (content : string) : result Result.t :=
  let structs := _parse_structs content in
  match _parse_services content with
  | inl e => inl e
  | inr services => inr (Result.mk structs services (_parse_enums content))
  end.


(** A lookup reads [self._result] and leaves the parser as it is; before
    any [parse] the attribute is [None] and has no [structs]. *)
Definition the_result (self : t) : result Result.t :=
  match _result self with
  | Some r => inr r
  | None => inl AttributeError
  end.

Definition get_fields_for_endpoint (self : t)
    (service_name method_name : string)
    : result (gmap string ThriftStruct.Field.t) :=
  match the_result self with
  | inl e => inl e
  | inr r =>
      match Dict.get (Result.services r) service_name with
      | inl e => inl e
      | inr service =>
          match Dict.get (ThriftService.endpoints service) method_name with
          | inl e => inl e
          | inr endpoint => inr (ThriftService.Endpoint.fields endpoint)
          end
      end
  end.

Definition get_fields_for_struct_name (self : t) (struct_name : string)
    : result (gmap string ThriftStruct.Field.t) :=
  match the_result self with
  | inl e => inl e
  | inr r =>
      match Dict.get (Result.structs r) struct_name with
      | inl e => inl e
      | inr struct => inr (ThriftStruct.fields struct)
      end
  end.

Definition has_struct (self : t) (struct_name : string) : result bool :=
  match the_result self with
  | inl e => inl e
  | inr r => inr (bool_decide (is_Some (Result.structs r !! struct_name)))
  end.

Definition has_enum (self : t) (enum_name : string) : result bool :=
  match the_result self with
  | inl e => inl e
  | inr r => inr (bool_decide (enum_name ∈ Result.enums r))
  end.

End ThriftParser.

(** ** Values of an argument mapping, and [json.loads]

    [json] is Python's library; the decoder below follows its scanner: the
    order in which [scan_once] tries the literal forms, the number pattern
    for an integer (an optional minus sign, then a lone zero or a run of
    digits that starts with a non-zero one) with an optional fraction and
    exponent, strict
    strings, and the loops of the array and object decoders.  A number with
    a fraction or an exponent, [NaN] and the infinities are kept as the text
    of the literal; strings are byte strings and a [\u] escape contributes
    the UTF-8 bytes of its code point. *)

#[warnings="-register-all"]
Inductive value : Type :=
| VNone
| VBool (b : bool)
| VInt (z : Z)
| VFloat (literal : string)
| VStr (s : string)
| VList (l : list value)
| VDict (d : gmap string value).

Module Json.

Inductive outcome (A : Type) : Type :=
| Done (a : A) (rest : string)
| Fail
| Starved.
Arguments Done {A} a rest.
Arguments Fail {A}.
Arguments Starved {A}.

Definition code (a : ascii) : Z := Z.of_nat (nat_of_ascii a).
Definition chr (z : Z) : ascii := ascii_of_nat (Z.to_nat z).

Definition is_ws (a : ascii) : bool := mem a (String " " (String "009" (String "010" (String "013" "")))).

Fixpoint skip_ws (s : string) : string :=
  match s with
  | String a s' => if is_ws a then skip_ws s' else s
  | EmptyString => s
  end.

Fixpoint strip_prefix (p s : string) : option string :=
  match p, s with
  | EmptyString, _ => Some s
  | String c p', String a s' =>
      if Ascii.eqb a c then strip_prefix p' s' else None
  | String _ _, EmptyString => None
  end.

Fixpoint span (f : ascii -> bool) (s : string) : string * string :=
  match s with
  | String a s' =>
      if f a then let '(l, r) := span f s' in (String a l, r)
      else (EmptyString, s)
  | EmptyString => (EmptyString, EmptyString)
  end.

Fixpoint digits_value (acc : Z) (s : string) : Z :=
  match s with
  | String a s' => digits_value (10 * acc + (code a - 48)) s'
  | EmptyString => acc
  end.

(** The parts of the number pattern, each with the text left after it: an
    optional minus sign, the integer digits, an optional fraction and an
    optional exponent. *)
Definition sign_part (s : string) : string * string :=
  match s with
  | String "-" t => ("-", t)
  | _ => ("", s)
  end.

Definition integer_part (s : string) : option (string * string) :=
  match s with
  | String "0" t => Some ("0", t)
  | _ =>
      match span is_digit s with
      | (EmptyString, _) => None
      | (ds, t) => Some (ds, t)
      end
  end.

Definition fraction_part (s : string) : string * string :=
  match s with
  | String "." t =>
      match span is_digit t with
      | (EmptyString, _) => ("", s)
      | (fs, t') => ("." ++ fs, t')
      end
  | _ => ("", s)
  end.

Definition exponent_sign (s : string) : string * string :=
  match s with
  | String g t => if mem g "-+" then (String g "", t) else ("", s)
  | EmptyString => ("", s)
  end.

Definition exponent_part (s : string) : string * string :=
  match s with
  | String e t =>
      if mem e "eE" then
        let '(sg, t1) := exponent_sign t in
        match span is_digit t1 with
        | (EmptyString, _) => ("", s)
        | (es, t2) => (String e sg ++ es, t2)
        end
      else ("", s)
  | EmptyString => ("", s)
  end.

(** The number pattern at the head of [s]: an integer when it has neither
    fraction nor exponent. *)
Definition number (s : string) : option (value * string) :=
  let '(sign, s1) := sign_part s in
  match integer_part s1 with
  | None => None
  | Some (ds, s2) =>
      let '(frac, s3) := fraction_part s2 in
      let '(exp, s4) := exponent_part s3 in
      match frac, exp with
      | EmptyString, EmptyString =>
          let n := digits_value 0 ds in
          Some (VInt (match sign with EmptyString => n | _ => - n end), s4)
      | _, _ => Some (VFloat (sign ++ ds ++ frac ++ exp), s4)
      end
  end.

(** The UTF-8 bytes of a code point. *)
Definition utf8 (cp : Z) : string :=
  let cont (z : Z) := chr (128 + Z.land z 63) in
  if cp <? 128 then String (chr cp) ""
  else if cp <? 2048 then
    String (chr (192 + Z.shiftr cp 6)) (String (cont cp) "")
  else if cp <? 65536 then
    String (chr (224 + Z.shiftr cp 12))
      (String (cont (Z.shiftr cp 6)) (String (cont cp) ""))
  else
    String (chr (240 + Z.shiftr cp 18))
      (String (cont (Z.shiftr cp 12))
         (String (cont (Z.shiftr cp 6)) (String (cont cp) ""))).

Definition hexval (a : ascii) : option Z :=
  if is_digit a then Some (code a - 48)
  else if between 97 102 a then Some (code a - 87)
  else if between 65 70 a then Some (code a - 55)
  else None.

Definition simple_escape (a : ascii) : option ascii :=
  if Ascii.eqb a "034" then Some a
  else if Ascii.eqb a "\" then Some a
  else if Ascii.eqb a "/" then Some a
  else if Ascii.eqb a "b" then Some "008"%char
  else if Ascii.eqb a "f" then Some "012"%char
  else if Ascii.eqb a "n" then Some "010"%char
  else if Ascii.eqb a "r" then Some "013"%char
  else if Ascii.eqb a "t" then Some "009"%char
  else None.

(** Where the string scanner stands: in plain text, after a backslash, or
    inside the hexadecimal digits of a [\u] escape. *)
Inductive sstate : Type :=
| Plain
| Esc
| Uni (todo : nat) (acc : Z).

Definition flush (high : option Z) (out : string) : string :=
  match high with
  | Some h => out ++ utf8 h
  | None => out
  end.

(** A decoded [\u] escape: a low surrogate completes a pending high one,
    a high surrogate waits for what follows. *)
Definition emit (high : option Z) (u : Z) (out : string)
    : string * option Z :=
  let low := (56320 <=? u) && (u <=? 57343) in
  match high with
  | Some h =>
      if low then
        (out ++ utf8 (65536 + Z.lor (Z.shiftl (h - 55296) 10) (u - 56320)),
         None)
      else if (55296 <=? u) && (u <=? 56319) then (out ++ utf8 h, Some u)
      else (out ++ utf8 h ++ utf8 u, None)
  | None =>
      if (55296 <=? u) && (u <=? 56319) then (out, Some u)
      else (out ++ utf8 u, None)
  end.

(** The body of a string, after its opening quote. *)
Fixpoint scanstring (st : sstate) (high : option Z) (out : string)
    (s : string) : option (string * string) :=
  match s with
  | EmptyString => None
  | String c s' =>
      match st with
      | Plain =>
          if Ascii.eqb c "034" then Some (flush high out, s')
          else if Ascii.eqb c "\" then scanstring Esc high out s'
          else if code c <? 32 then None
          else scanstring Plain None (flush high out ++ String c "") s'
      | Esc =>
          if Ascii.eqb c "u" then scanstring (Uni 3 0) high out s'
          else
            match simple_escape c with
            | Some d =>
                scanstring Plain None (flush high out ++ String d "") s'
            | None => None
            end
      | Uni todo acc =>
          match hexval c with
          | None => None
          | Some h =>
              match todo with
              | O =>
                  let '(out', high') := emit high (16 * acc + h) out in
                  scanstring Plain high' out' s'
              | S todo' => scanstring (Uni todo' (16 * acc + h)) high out s'
              end
          end
      end
  end.

Definition lift {A : Type} (x : option (A * string)) : outcome A :=
  match x with
  | Some (a, rest) => Done a rest
  | None => Fail
  end.

(** A scalar literal that is neither a string nor a container. *)
Definition scalar (s : string) : outcome value :=
  match strip_prefix "null" s with
  | Some r => Done VNone r
  | None =>
  match strip_prefix "true" s with
  | Some r => Done (VBool true) r
  | None =>
  match strip_prefix "false" s with
  | Some r => Done (VBool false) r
  | None =>
  match number s with
  | Some (v, r) => Done v r
  | None =>
  match strip_prefix "NaN" s with
  | Some r => Done (VFloat "NaN") r
  | None =>
  match strip_prefix "Infinity" s with
  | Some r => Done (VFloat "Infinity") r
  | None =>
  match strip_prefix "-Infinity" s with
  | Some r => Done (VFloat "-Infinity") r
  | None => Fail
  end end end end end end end.

(** The text after a leading [c], when the text starts with [c]. *)
Definition after (c : ascii) (s : string) : option string :=
  match s with
  | String a rest => if Ascii.eqb a c then Some rest else None
  | EmptyString => None
  end.

(** [scan_once], the element loop of the array decoder and the pair loop
    of the object decoder; [n] bounds the number of nested calls. *)
Fixpoint scan_once (n : nat) (s : string) : outcome value :=
  match n with
  | O => Starved
  | S n' =>
      match s with
      | EmptyString => Fail
      | String c s' =>
          if Ascii.eqb c "034" then
            match scanstring Plain None "" s' with
            | Some (str, rest) => Done (VStr str) rest
            | None => Fail
            end
          else if Ascii.eqb c "[" then
            match after "]" (skip_ws s') with
            | Some rest => Done (VList []) rest
            | None =>
                match array_items n' (skip_ws s') [] with
                | Done l rest => Done (VList l) rest
                | Fail => Fail
                | Starved => Starved
                end
            end
          else if Ascii.eqb c "{" then
            match after "}" (skip_ws s') with
            | Some rest => Done (VDict ∅) rest
            | None =>
                match object_items n' (skip_ws s') ∅ with
                | Done d rest => Done (VDict d) rest
                | Fail => Fail
                | Starved => Starved
                end
            end
          else scalar s
      end
  end
with array_items (n : nat) (s : string) (acc : list value)
    : outcome (list value) :=
  match n with
  | O => Starved
  | S n' =>
      match scan_once n' s with
      | Done v rest =>
          match after "]" (skip_ws rest) with
          | Some rest' => Done (acc ++ [v])%list rest'
          | None =>
              match after "," (skip_ws rest) with
              | Some rest' => array_items n' (skip_ws rest') (acc ++ [v])%list
              | None => Fail
              end
          end
      | Fail => Fail
      | Starved => Starved
      end
  end
with object_items (n : nat) (s : string) (acc : gmap string value)
    : outcome (gmap string value) :=
  match n with
  | O => Starved
  | S n' =>
      match after "034" s with
      | None => Fail
      | Some s' =>
          match scanstring Plain None "" s' with
          | None => Fail
          | Some (key, rest) =>
              match after ":" (skip_ws rest) with
              | None => Fail
              | Some rest1 =>
                  match scan_once n' (skip_ws rest1) with
                  | Done v rest2 =>
                      match after "}" (skip_ws rest2) with
                      | Some rest3 => Done (<[key := v]> acc) rest3
                      | None =>
                          match after "," (skip_ws rest2) with
                          | Some rest3 =>
                              object_items n' (skip_ws rest3)
                                           (<[key := v]> acc)
                          | None => Fail
                          end
                      end
                  | Fail => Fail
                  | Starved => Starved
                  end
              end
          end
      end
  end.

(** [json.loads(s)]: one value, white space around it, nothing else.  The
    decoder is the one of an interpreter whose stack is deep enough for the
    text: the bound on the depth of calls is not modelled here, and the
    converter takes its decoder as a parameter. *)
Definition loads (s : string) : result value :=
  match scan_once (2 * String.length s + 2) (skip_ws s) with
  | Done v rest =>
      match skip_ws rest with
      | EmptyString => inr v
      | _ => inl ValueError
      end
  | _ => inl ValueError
  end.

End Json.

(** ** The request-literal converter *)

Module Converter.

(** [_clean(request_body)]: every [ValueError] of the three searches is
    caught and leaves the text as it is. *)
Definition _clean (request_body : string) : string :=
  match index request_body ":" with
  | inl _ => request_body
  | inr colon_index =>
      match index request_body "(" with
      | inl _ => request_body
      | inr open_paren_index =>
          if open_paren_index <? colon_index then
            match rindex request_body ")" with
            | inl _ => request_body
            | inr close_paren_index =>
                slice request_body (open_paren_index + 1) close_paren_index
            end
          else request_body
      end
  end.

(** [_get_key(field_string)] *)
Definition _get_key (field_string : string) : string :=
  let colon_index := find field_string ":" in
  let open_paren_index := find_in field_string "(" 0 colon_index in
  slice field_string (open_paren_index + 1) colon_index.

(** The functions below call [json.loads] and call [convert] back.  Both
    calls are parameters: each can return, raise [ValueError], or raise
    another exception, as [RecursionError] when the stack of the
    interpreter is exhausted.  [None] stands for a call of [convert] that
    was cut short by the bound on the nesting of calls. *)
Section Knot.

Variable loads : string -> result value.
Variable convert : string -> option (result (gmap string value)).

(** The inner [try] of [_convert_value_string]: the JSON reading of the
    text, or the text itself when the decoder raises [ValueError]; another
    exception is not caught. *)
Definition literal_or_text (value_string : string) : result value :=
  match loads value_string with
  | inr v => inr v
  | inl ValueError => inr (VStr value_string)
  | inl e => inl e
  end.

(** [_convert_value_string(value_string)]: the call of [convert] sits
    inside the [try], so a [ValueError] it raises is handled like one of
    [index] or [rindex], after [value_string] was rebound to the inner
    text. *)
Definition _convert_value_string (value_string : string)
    : option (result value) :=
  match index value_string "(" with
  | inl _ => Some (literal_or_text value_string)
  | inr open_paren_index =>
      match rindex value_string ")" with
      | inl _ => Some (literal_or_text value_string)
      | inr close_paren_index =>
          let value_string :=
            slice value_string (open_paren_index + 1) close_paren_index in
          match convert value_string with
          | None => None
          | Some (inr d) => Some (inr (VDict d))
          | Some (inl ValueError) => Some (literal_or_text value_string)
          | Some (inl e) => Some (inl e)
          end
      end
  end.

(** [_get_value(field_string)] *)
Definition _get_value (field_string : string) : option (result value) :=
  match index field_string ":" with
  | inl e => Some (inl e)
  | inr colon_index =>
      let value_string := slice_from field_string (colon_index + 1) in
      _convert_value_string value_string
  end.

(** The comprehension of [_convert_from_field_strings], entry by
    entry. *)
Fixpoint fill (field_strings : list string) (d : gmap string value)
    : option (result (gmap string value)) :=
  match field_strings with
  | [] => Some (inr d)
  | field_string :: field_strings' =>
      let key := _get_key field_string in
      match _get_value field_string with
      | None => None
      | Some (inl e) => Some (inl e)
      | Some (inr v) => fill field_strings' (<[key := v]> d)
      end
  end.

Definition _convert_from_field_strings (field_strings : list string)
    : option (result (gmap string value)) :=
  fill field_strings ∅.

(** The body of [convert(request_body)]. *)
Definition convert_body (request_body : string)
    : option (result (gmap string value)) :=
  let request_body := _clean request_body in
  let field_strings := split_fields_string request_body "([" "])" "," in
  _convert_from_field_strings field_strings.

End Knot.

Fixpoint convert_upto (n : nat) (request_body : string)
    : option (result (gmap string value)) :=
  match n with
  | O => None
  | S n' => convert_body Json.loads (convert_upto n') request_body
  end.

(** [convert(request_body)], with the decoder above: a nested call works
    on a strictly shorter text, so the length of the literal bounds the
    nesting.  This is the function on an interpreter whose stack is deep
    enough for the literal; the bound of the interpreter on the depth of
    calls is not modelled, and what holds whatever the nested call does is
    stated over the parameters of the section above. *)
Definition convert (request_body : string)
    : option (result (gmap string value)) :=
  convert_upto (S (String.length request_body)) request_body.

End Converter.

(** ** Sample texts and a sample parse result *)

Module Samples.

Import ThriftParser.

(** A text given line by line, every line ended by a newline. *)
Definition text (lines : list string) : string :=
  fold_right (fun line rest => line ++ String nl rest) "" lines.

Definition struct_with_index_10 : string :=
  text ["struct S {"; "  1: i32 a,"; "  10: string b"; "}"].

Definition struct_out_of_order : string :=
  text ["struct S {"; "  5: string b,"; "  1: i32 a"; "}"].

Definition struct_required : string :=
  text ["struct S {"; "  1: required i32 a"; "}"].

Definition struct_optional : string :=
  text ["struct S {"; "  1: optional i32 a"; "}"].

Definition struct_unqualified : string :=
  text ["struct S {"; "  1: i32 a"; "}"].

Definition service_without_endpoints : string :=
  text ["service Empty {"; "}"].

Definition idl_with_empty_service : string :=
  text ["namespace py demo"; "";
        "struct Point {"; "  1: i32 x,"; "  2: i32 y"; "}"; "";
        "service Empty {"; "}"; "";
        "enum Colour {"; "  RED = 1,"; "  BLUE = 2"; "}"].

Definition idl_with_endpoint : string :=
  text ["namespace py demo"; "";
        "struct Point {"; "  1: i32 x,"; "  2: i32 y"; "}"; "";
        "service Geo {"; "  i32 area(1: i32 w, 2: i32 h)"; "}"; "";
        "enum Colour {"; "  RED = 1,"; "  BLUE = 2"; "}"].

(** A parser that holds a result with one struct [Point] and one service
    [Geo] with the method [area]. *)
Definition demo_fields : gmap string ThriftStruct.Field.t :=
  {[ "x" := ThriftStruct.Field.mk "1" "i32" "x" false None ]}.

Definition demo_result : Result.t :=
  Result.mk
    {[ "Point" := ThriftStruct.mk "Point" demo_fields ]}
    {[ "Geo" := ThriftService.mk "Geo"
         {[ "area" := ThriftService.Endpoint.mk "i32" "area" demo_fields "" ]} ]}
    {[ "Colour" ]}.

Definition demo_parser : ThriftParser.t :=
  ThriftParser.mk (Some "geo.thrift") (Some "") (Some demo_result).

End Samples.

(** ** The depth counter of the splitter, as a function of the text *)

Module Depth.

(** The depth counter of the splitter's loop after a text, read off the
    text from left to right. *)
Fixpoint depth_after (opening closing : string) (depth : Z) (s : string) : Z :=
  match s with
  | EmptyString => depth
  | String c s' =>
      if mem c opening then depth_after opening closing (depth + 1) s'
      else if mem c closing then depth_after opening closing (depth - 1) s'
      else depth_after opening closing depth s'
  end.

End Depth.

(** ** What a match of a pattern took from the text *)

Module Trace.

(** Every character of a text is in a class. *)
Fixpoint all_in (c : ascii -> bool) (s : string) : bool :=
  match s with
  | EmptyString => true
  | String a s' => c a && all_in c s'
  end.

(** What a successful run of the matcher over [r] can do, with the text
    each repetition has taken: the text is made of characters of the
    repeated class. *)
Fixpoint trace (r : regex) (p : pos) (cs : caps) (p' : pos) (cs' : caps)
    : Prop :=
  match r with
  | Eps => p' = p /\ cs' = cs
  | Bol => at_bol p = true /\ p' = p /\ cs' = cs
  | Lit s => eat s p = Some p' /\ cs' = cs
  | Cls c =>
      exists a s', rest p = String a s' /\ c a = true
                   /\ p' = mkPos (Some a) s' /\ cs' = cs
  | Rep _ min c =>
      (exists run, rest p = run ++ rest p'
                   /\ (min <= String.length run)%nat
                   /\ all_in c run = true)
      /\ cs' = cs
  | Opt r1 => trace r1 p cs p' cs' \/ (p' = p /\ cs' = cs)
  | Alt r1 r2 => trace r1 p cs p' cs' \/ trace r2 p cs p' cs'
  | Grp n r1 =>
      exists cs1, trace r1 p cs p' cs1 /\ cs' = (n, consumed p p') :: cs1
  | Seq r1 r2 =>
      exists p1 cs1, trace r1 p cs p1 cs1 /\ trace r2 p1 cs1 p' cs'
  end.

End Trace.

(** ** [ThriftParser.Result.__str__] *)

Module ResultStr.

Import ThriftParser.

(** What [str] of a parse result can raise: the exception of a nested
    [str], or [NameError] for a name that is bound nowhere. *)
Inductive raised : Type :=
| NameError (name : string)
| Raised (e : exn).

Section Str.

(** [str(struct)] and [str(service)]: the methods belong to the data
    classes [ThriftStruct] and [ThriftService]; they are parameters here,
    and can return or raise. *)
Variable str_struct : ThriftStruct.t -> result string.
Variable str_service : ThriftService.t -> result string.

(** [Result.__str__]: the two comprehensions are evaluated, then the name
    [enums], which is neither a local, nor an attribute access, nor a name
    of the module. *)
Definition __str__ (self : Result.t) : raised + string :=
  match Dict.collect (str_struct <$> Result.structs self) with
  | inl e => inl (Raised e)
  | inr _ =>
      match Dict.collect (str_service <$> Result.services self) with
      | inl e => inl (Raised e)
      | inr _ => inl (NameError "enums")
      end
  end.

End Str.

End ResultStr.


Import ThriftParser Samples Converter.

(** ** Facts about the string primitives *)

Module PyStrFacts.

Lemma append_cons (a : ascii) (s t : string) :
  String a s ++ t = String a (s ++ t).
Proof. reflexivity. Qed.

Lemma append_nil_l (s : string) : "" ++ s = s.
Proof. reflexivity. Qed.

Lemma append_nil_r (s : string) : s ++ "" = s.
Proof.
  induction s as [|a s IH]; [reflexivity|].
  now rewrite append_cons, IH.
Qed.

Lemma append_assoc (a b c : string) : (a ++ b) ++ c = a ++ (b ++ c).
Proof.
  induction a as [|x a IH]; [reflexivity|].
  now rewrite !append_cons, IH.
Qed.

Lemma length_append (a b : string) :
  String.length (a ++ b) = (String.length a + String.length b)%nat.
Proof.
  induction a as [|x a IH]; [reflexivity|].
  rewrite append_cons. simpl. now rewrite IH.
Qed.

Lemma length_take (n : nat) (s : string) :
  String.length (take n s) = Nat.min n (String.length s).
Proof.
  revert s; induction n as [|n IH]; intros [|a s]; simpl; try reflexivity.
  f_equal; apply IH.
Qed.

Lemma length_drop (n : nat) (s : string) :
  String.length (drop n s) = (String.length s - n)%nat.
Proof.
  revert s; induction n as [|n IH]; intros [|a s]; simpl; try reflexivity.
  apply IH.
Qed.

Lemma drop_append (n : nat) (a b : string) :
  (n <= String.length a)%nat -> drop n (a ++ b) = drop n a ++ b.
Proof.
  revert a; induction n as [|n IH]; intros [|x a] H; simpl in *;
    try reflexivity; try lia.
  apply IH; lia.
Qed.

Lemma drop_all (n : nat) (s : string) :
  (String.length s <= n)%nat -> drop n s = "".
Proof.
  revert s; induction n as [|n IH]; intros [|x s] H; simpl in *;
    try reflexivity; try lia.
  apply IH; lia.
Qed.

Lemma take_append (n : nat) (a b : string) :
  n = String.length a -> take n (a ++ b) = a.
Proof.
  intros ->. induction a as [|x a IH].
  - now destruct b.
  - rewrite append_cons. simpl. now rewrite IH.
Qed.

Lemma clamp_id (n i : Z) : 0 <= i <= n -> clamp n i = i.
Proof. intros H. unfold clamp. destruct (Z.ltb_spec i 0); lia. Qed.

Lemma clamp_range (n i : Z) : 0 <= n -> 0 <= clamp n i <= n.
Proof. intros H. unfold clamp. destruct (i <? 0); lia. Qed.

Lemma len_nonneg (s : string) : 0 <= len s.
Proof. unfold len; lia. Qed.

(** A slice that ends where a prefix ends is the tail of that prefix. *)
Lemma slice_prefix (pre suf : string) (l : nat) :
  (l <= String.length pre)%nat ->
  slice (pre ++ suf) (Z.of_nat l) (Z.of_nat (String.length pre))
  = drop l pre.
Proof.
  intros H. unfold slice, len.
  rewrite !clamp_id by (rewrite length_append; lia).
  rewrite Nat2Z.id, drop_append by assumption.
  apply take_append. rewrite length_drop. lia.
Qed.

Lemma slice_from_drop (s : string) (l : nat) :
  (l <= String.length s)%nat -> slice_from s (Z.of_nat l) = drop l s.
Proof.
  intros H. unfold slice_from, len.
  rewrite clamp_id by lia. now rewrite Nat2Z.id.
Qed.

Lemma length_slice (s : string) (lo hi : Z) :
  (String.length (slice s lo hi)
   <= String.length s - Z.to_nat (clamp (len s) lo))%nat.
Proof. unfold slice. rewrite length_take, length_drop. lia. Qed.

Lemma length_slice_from (s : string) (lo : Z) :
  String.length (slice_from s lo)
  = (String.length s - Z.to_nat (clamp (len s) lo))%nat.
Proof. unfold slice_from. apply length_drop. Qed.

Lemma first_pos_lt (c : ascii) (s : string) (i : nat) :
  first_pos c s = Some i -> (i < String.length s)%nat.
Proof.
  revert i; induction s as [|a s IH]; simpl; intros i H; [discriminate|].
  destruct (Ascii.eqb a c).
  - injection H as <-. lia.
  - destruct (first_pos c s) as [j|]; simpl in H; [|discriminate].
    injection H as <-. specialize (IH j eq_refl). lia.
Qed.

Lemma mem_single (c a : ascii) : mem c (String a "") = Ascii.eqb c a.
Proof.
  unfold mem; simpl. rewrite (Ascii.eqb_sym a c).
  now destruct (Ascii.eqb c a).
Qed.

End PyStrFacts.

Import PyStrFacts.

(** ** Facts about the splitter *)

Module SplitterFacts.

Section Loop.

Variables (opening closing : string) (delim : ascii).

Lemma append_snoc (pre : string) (c : ascii) (suf : string) :
  (pre ++ String c "") ++ suf = pre ++ String c suf.
Proof. now rewrite append_assoc. Qed.

Lemma length_snoc (pre : string) (c : ascii) :
  Z.of_nat (String.length (pre ++ String c ""))
  = Z.of_nat (String.length pre) + 1.
Proof. rewrite length_append. simpl. lia. Qed.

Lemma loop_pieces (suf pre : string) (acc : list string) (depth : Z)
    (l : nat) :
  (l <= String.length pre)%nat ->
  finish (pre ++ suf)
    (fold_left (step (pre ++ suf) opening closing delim)
       (enumerate_from (Z.of_nat (String.length pre)) suf)
       (mkState acc depth (Z.of_nat l)))
  = (acc ++ pieces opening closing delim depth (drop l pre) suf)%list.
Proof.
  revert pre acc depth l.
  induction suf as [|c suf IH]; intros pre acc depth l Hl.
  - simpl. unfold finish; simpl. rewrite append_nil_r.
    now rewrite slice_from_drop.
  - cbn [enumerate_from fold_left pieces].
    rewrite <- (length_snoc pre c).
    assert (Hl' : (l <= String.length (pre ++ String c ""))%nat)
      by (rewrite length_append; lia).
    assert (Hd : drop l (pre ++ String c "") = drop l pre ++ String c "")
      by now apply drop_append.
    assert (Hs : slice (pre ++ String c suf) (Z.of_nat l)
                   (Z.of_nat (String.length pre)) = drop l pre)
      by now apply slice_prefix.
    unfold step at 2. cbn [field_strings bracket_depth last_index].
    rewrite Hs, <- (append_snoc pre c suf).
    destruct (mem c opening).
    { rewrite IH by assumption. now rewrite Hd. }
    destruct (mem c closing).
    { rewrite IH by assumption. now rewrite Hd. }
    destruct (Ascii.eqb c delim && (depth =? 0)).
    + rewrite <- (length_snoc pre c).
      rewrite IH by lia.
      rewrite (drop_all (String.length (pre ++ String c ""))) by lia.
      now rewrite <- app_assoc.
    + rewrite IH by assumption. now rewrite Hd.
Qed.

Lemma split_pieces (s : string) :
  split_fields_string s opening closing delim
  = pieces opening closing delim 0 "" s.
Proof.
  unfold split_fields_string, enumerate, init.
  exact (loop_pieces s "" [] 0 0%nat (Nat.le_refl _)).
Qed.

Lemma pieces_nonempty (s : string) (depth : Z) (cur : string) :
  pieces opening closing delim depth cur s <> [].
Proof.
  revert depth cur; induction s as [|c s IH]; intros depth cur; simpl.
  - discriminate.
  - destruct (mem c opening); [apply IH|].
    destruct (mem c closing); [apply IH|].
    destruct (Ascii.eqb c delim && (depth =? 0)); [discriminate|apply IH].
Qed.

Lemma join_cons (sep x : string) (l : list string) :
  l <> [] -> join sep (x :: l) = x ++ sep ++ join sep l.
Proof. destruct l; [congruence | reflexivity]. Qed.

Lemma join_pieces (s : string) (depth : Z) (cur : string) :
  join (String delim "") (pieces opening closing delim depth cur s)
  = cur ++ s.
Proof.
  revert depth cur; induction s as [|c s IH]; intros depth cur; simpl.
  - now rewrite append_nil_r.
  - destruct (mem c opening); [now rewrite IH, append_snoc|].
    destruct (mem c closing); [now rewrite IH, append_snoc|].
    destruct (Ascii.eqb_spec c delim) as [->|Hne]; simpl.
    + destruct (depth =? 0).
      * rewrite join_cons by apply pieces_nonempty.
        now rewrite IH.
      * now rewrite IH, append_snoc.
    + now rewrite IH, append_snoc.
Qed.

Lemma pieces_length (s : string) (depth : Z) (cur : string) :
  Forall (fun p => (String.length p
                    <= String.length cur + String.length s)%nat)
         (pieces opening closing delim depth cur s).
Proof.
  revert depth cur; induction s as [|c s IH]; intros depth cur; simpl.
  - constructor; [lia | constructor].
  - assert (Hsnoc : forall d,
              Forall (fun p => (String.length p
                   <= String.length cur + S (String.length s))%nat)
                (pieces opening closing delim d (cur ++ String c "") s)).
    { intros d. eapply Forall_impl; [apply IH|].
      intros p Hp. cbv beta in *. rewrite length_append in Hp.
      simpl in Hp. lia. }
    destruct (mem c opening); [apply Hsnoc|].
    destruct (mem c closing); [apply Hsnoc|].
    destruct (Ascii.eqb c delim && (depth =? 0)); [|apply Hsnoc].
    constructor; [lia|].
    eapply Forall_impl; [apply IH|]. intros p Hp. simpl in Hp. lia.
Qed.

End Loop.
Lemma _step_step (s : string) (st : state) (ic : Z * ascii) :
  _step s st ic = step s "<" ">" "," st ic.
Proof.
  destruct ic as [i c]. unfold _step, step. now rewrite !mem_single.
Qed.

Lemma _split_split (s : string) :
  _split_fields_string s = split_fields_string s "<" ">" ",".
Proof.
  unfold _split_fields_string, split_fields_string. f_equal.
  generalize init. induction (enumerate s) as [|ic l IH]; intros st.
  - reflexivity.
  - simpl. now rewrite _step_step, IH.
Qed.

End SplitterFacts.

Import SplitterFacts.

(** ** Facts about the JSON decoder *)

Module JsonFacts.

Import Json.


Lemma skip_ws_length (s : string) :
  (String.length (skip_ws s) <= String.length s)%nat.
Proof.
  induction s as [|a s IH]; simpl; [lia|].
  destruct (is_ws a); simpl; lia.
Qed.

Lemma strip_prefix_length (p : string) :
  forall s r, strip_prefix p s = Some r ->
              String.length s = (String.length p + String.length r)%nat.
Proof.
  induction p as [|c p IH]; intros s r H; simpl in H.
  - now injection H as ->.
  - destruct s as [|a s]; [discriminate|].
    destruct (Ascii.eqb a c); [|discriminate].
    apply IH in H. simpl. lia.
Qed.

Lemma span_length (f : ascii -> bool) (s : string) :
  forall l r, span f s = (l, r) ->
              String.length s = (String.length l + String.length r)%nat.
Proof.
  induction s as [|a s IH]; intros l r H; simpl in H.
  - now injection H as <- <-.
  - destruct (f a).
    + destruct (span f s) as [l' r'] eqn:Hs. injection H as <- <-.
      specialize (IH _ _ eq_refl). simpl. lia.
    + injection H as <- <-. reflexivity.
Qed.

Lemma sign_part_length (s x r : string) :
  sign_part s = (x, r) -> (String.length r <= String.length s)%nat.
Proof.
  unfold sign_part. intros H.
  destruct s as [|a s]; [injection H as <- <-; lia|].
  destruct (Ascii.eqb_spec a "-") as [->|Hne].
  - injection H as <- <-. simpl. lia.
  - assert (r = String a s); [|subst; lia].
    destruct a as [[] [] [] [] [] [] [] []]; try congruence;
      now injection H as <- <-.
Qed.

Lemma integer_part_length (s ds r : string) :
  integer_part s = Some (ds, r) -> (String.length r < String.length s)%nat.
Proof.
  unfold integer_part. intros H.
  assert (Hspan : match span Re.is_digit s with
                  | (EmptyString, _) => None
                  | (ds, t) => Some (ds, t)
                  end = Some (ds, r) ->
                  (String.length r < String.length s)%nat).
  { destruct (span Re.is_digit s) as [l t] eqn:Hs. apply span_length in Hs.
    destruct l; [discriminate|]. intros [= <- <-]. simpl in Hs. lia. }
  destruct s as [|a s]; [auto|].
  destruct (Ascii.eqb_spec a "0") as [->|Hne].
  - injection H as <- <-. simpl. lia.
  - apply Hspan.
    destruct a as [[] [] [] [] [] [] [] []]; try congruence; exact H.
Qed.

Lemma fraction_part_length (s x r : string) :
  fraction_part s = (x, r) -> (String.length r <= String.length s)%nat.
Proof.
  unfold fraction_part. intros H.
  destruct s as [|a s]; [injection H as <- <-; lia|].
  destruct (Ascii.eqb_spec a ".") as [->|Hne].
  - destruct (span Re.is_digit s) as [l t] eqn:Hs. apply span_length in Hs.
    destruct l; injection H as <- <-; simpl in *; lia.
  - assert (r = String a s); [|subst; lia].
    destruct a as [[] [] [] [] [] [] [] []]; try congruence;
      now injection H as <- <-.
Qed.

Lemma exponent_sign_length (s x r : string) :
  exponent_sign s = (x, r) -> (String.length r <= String.length s)%nat.
Proof.
  unfold exponent_sign. intros H.
  destruct s as [|g t]; [injection H as <- <-; lia|].
  destruct (mem g "-+"); injection H as <- <-; simpl; lia.
Qed.

Lemma exponent_part_length (s x r : string) :
  exponent_part s = (x, r) -> (String.length r <= String.length s)%nat.
Proof.
  unfold exponent_part. intros H.
  destruct s as [|e t]; [injection H as <- <-; lia|].
  destruct (mem e "eE"); [|injection H as <- <-; lia].
  destruct (exponent_sign t) as [sg t1] eqn:Hsg.
  apply exponent_sign_length in Hsg.
  destruct (span Re.is_digit t1) as [l t2] eqn:Hs. apply span_length in Hs.
  destruct l; injection H as <- <-; simpl in *; lia.
Qed.

Lemma number_shorter (s : string) (v : value) (r : string) :
  number s = Some (v, r) -> (String.length r < String.length s)%nat.
Proof.
  unfold number. intros H.
  destruct (sign_part s) as [sign s1] eqn:H1. apply sign_part_length in H1.
  destruct (integer_part s1) as [[ds s2]|] eqn:H2; [|discriminate].
  apply integer_part_length in H2.
  destruct (fraction_part s2) as [frac s3] eqn:H3.
  apply fraction_part_length in H3.
  destruct (exponent_part s3) as [exp s4] eqn:H4.
  apply exponent_part_length in H4.
  assert (r = s4) as -> by (destruct frac, exp; congruence).
  lia.
Qed.

Lemma scanstring_shorter (s : string) :
  forall st high out str r,
    scanstring st high out s = Some (str, r) ->
    (String.length r < String.length s)%nat.
Proof.
  induction s as [|c s IH]; intros st high out str r H; simpl in H;
    [discriminate|].
  assert (Hrec : forall st' high' out',
             scanstring st' high' out' s = Some (str, r) ->
             (String.length r < S (String.length s))%nat).
  { intros st' high' out' H'. apply IH in H'. lia. }
  simpl. destruct st as [| |todo acc].
  - destruct (Ascii.eqb c "034"); [injection H as <- <-; lia|].
    destruct (Ascii.eqb c "\"); [eauto|].
    destruct (code c <? 32); [discriminate|eauto].
  - destruct (Ascii.eqb c "u"); [eauto|].
    destruct (simple_escape c); [eauto|discriminate].
  - destruct (hexval c); [|discriminate].
    destruct todo; [|eauto].
    destruct (emit high (16 * acc + z) out). eauto.
Qed.

Lemma scalar_settled (s : string) :
  scalar s <> Starved
  /\ forall v r, scalar s = Done v r ->
                 (String.length r < String.length s)%nat.
Proof.
  unfold scalar.
  repeat match goal with
         | |- context [strip_prefix ?p s] =>
             let E := fresh "E" in
             destruct (strip_prefix p s) eqn:E;
             [apply strip_prefix_length in E; simpl in E;
              split; [discriminate | intros ? ? [= <- <-]; lia] |]
         | |- context [number s] =>
             let E := fresh "E" in
             destruct (number s) as [[? ?]|] eqn:E;
             [apply number_shorter in E;
              split; [discriminate | intros ? ? [= <- <-]; lia] |]
         end.
  split; [discriminate|discriminate].
Qed.


Lemma after_length (c : ascii) (s r : string) :
  after c s = Some r -> String.length s = S (String.length r).
Proof.
  destruct s as [|a s]; simpl; [discriminate|].
  destruct (Ascii.eqb a c); [|discriminate]. now intros [= <-].
Qed.

Ltac lengths :=
  repeat match goal with
         | H : after _ _ = Some _ |- _ => apply after_length in H
         | H : scanstring _ _ _ _ = Some _ |- _ => apply scanstring_shorter in H
         | |- context [skip_ws ?s] =>
             lazymatch goal with
             | _ : (String.length (skip_ws s) <= String.length s)%nat |- _ => fail
             | _ => pose proof (skip_ws_length s)
             end
         | H : context [skip_ws ?s] |- _ =>
             lazymatch goal with
             | _ : (String.length (skip_ws s) <= String.length s)%nat |- _ => fail
             | _ => pose proof (skip_ws_length s)
             end
         end.

(** A decoded value, list or object leaves a strictly shorter text. *)
Lemma scan_shorter (n : nat) :
  (forall s v r, scan_once n s = Done v r ->
                 (String.length r < String.length s)%nat)
  /\ (forall s acc l r, array_items n s acc = Done l r ->
                        (String.length r < String.length s)%nat)
  /\ (forall s acc d r, object_items n s acc = Done d r ->
                        (String.length r < String.length s)%nat).
Proof.
  induction n as [|n (IHv & IHa & IHo)]; [repeat split; discriminate|].
  split; [|split].
  - intros s v r H. simpl in H. destruct s as [|c s']; [discriminate|].
    destruct (Ascii.eqb c "034").
    { destruct (scanstring Plain None "" s') as [[str rest]|] eqn:Hs;
        [|discriminate].
      injection H as <- <-. lengths. simpl. lia. }
    destruct (Ascii.eqb c "[").
    { destruct (after "]" (skip_ws s')) as [rest|] eqn:Ha.
      - injection H as <- <-. lengths. simpl. lia.
      - destruct (array_items n (skip_ws s') []) as [l rest| |] eqn:Hi;
          try discriminate.
        injection H as <- <-. apply IHa in Hi. lengths. simpl. lia. }
    destruct (Ascii.eqb c "{").
    { destruct (after "}" (skip_ws s')) as [rest|] eqn:Ha.
      - injection H as <- <-. lengths. simpl. lia.
      - destruct (object_items n (skip_ws s') ∅) as [d rest| |] eqn:Hi;
          try discriminate.
        injection H as <- <-. apply IHo in Hi. lengths. simpl. lia. }
    now apply scalar_settled in H.
  - intros s acc l r H. simpl in H.
    destruct (scan_once n s) as [v rest| |] eqn:Hv; try discriminate.
    apply IHv in Hv.
    destruct (after "]" (skip_ws rest)) as [rest'|] eqn:Ha.
    { injection H as <- <-. lengths. lia. }
    destruct (after "," (skip_ws rest)) as [rest'|] eqn:Hc; [|discriminate].
    apply IHa in H. lengths. lia.
  - intros s acc d r H. simpl in H.
    destruct (after "034" s) as [s'|] eqn:Hq; [|discriminate].
    destruct (scanstring Plain None "" s') as [[key rest]|] eqn:Hs;
      [|discriminate].
    destruct (after ":" (skip_ws rest)) as [rest1|] eqn:Hc; [|discriminate].
    destruct (scan_once n (skip_ws rest1)) as [v rest2| |] eqn:Hv;
      try discriminate.
    apply IHv in Hv.
    destruct (after "}" (skip_ws rest2)) as [rest3|] eqn:Ha.
    { injection H as <- <-. lengths. lia. }
    destruct (after "," (skip_ws rest2)) as [rest3|] eqn:Hm; [|discriminate].
    apply IHo in H. lengths. lia.
Qed.

(** With a bound above twice the length of the text, no call is cut
    short. *)
Lemma scan_fed (n : nat) :
  (forall s, (2 * String.length s < n)%nat -> scan_once n s <> Starved)
  /\ (forall s acc, (2 * String.length s + 1 < n)%nat ->
                    array_items n s acc <> Starved)
  /\ (forall s acc, (2 * String.length s + 1 < n)%nat ->
                    object_items n s acc <> Starved).
Proof.
  induction n as [|n (IHv & IHa & IHo)]; [repeat split; intros; lia|].
  destruct (scan_shorter n) as (Sv & Sa & So).
  split; [|split].
  - intros s Hn. simpl. destruct s as [|c s']; [discriminate|].
    simpl in Hn.
    destruct (Ascii.eqb c "034").
    { destruct (scanstring Plain None "" s') as [[str rest]|]; discriminate. }
    destruct (Ascii.eqb c "[").
    { destruct (after "]" (skip_ws s')); [discriminate|].
      specialize (IHa (skip_ws s') []).
      destruct (array_items n (skip_ws s') []); try discriminate.
      exfalso. apply IHa; [|reflexivity]. lengths. lia. }
    destruct (Ascii.eqb c "{").
    { destruct (after "}" (skip_ws s')); [discriminate|].
      specialize (IHo (skip_ws s') ∅).
      destruct (object_items n (skip_ws s') ∅); try discriminate.
      exfalso. apply IHo; [|reflexivity]. lengths. lia. }
    apply scalar_settled.
  - intros s acc Hn. simpl.
    specialize (IHv s). specialize (Sv s).
    destruct (scan_once n s) as [v rest| |];
      [|discriminate|exfalso; apply IHv; [lia|reflexivity]].
    specialize (Sv v rest eq_refl).
    destruct (after "]" (skip_ws rest)); [discriminate|].
    destruct (after "," (skip_ws rest)) as [rest'|] eqn:Hc; [|discriminate].
    apply IHa. lengths. lia.
  - intros s acc Hn. simpl.
    destruct (after "034" s) as [s'|] eqn:Hq; [|discriminate].
    destruct (scanstring Plain None "" s') as [[key rest]|] eqn:Hs;
      [|discriminate].
    destruct (after ":" (skip_ws rest)) as [rest1|] eqn:Hc; [|discriminate].
    specialize (IHv (skip_ws rest1)). specialize (Sv (skip_ws rest1)).
    destruct (scan_once n (skip_ws rest1)) as [v rest2| |];
      [|discriminate|exfalso; apply IHv; [lengths; lia|reflexivity]].
    specialize (Sv v rest2 eq_refl).
    destruct (after "}" (skip_ws rest2)); [discriminate|].
    destruct (after "," (skip_ws rest2)) as [rest3|] eqn:Hm; [|discriminate].
    apply IHo. lengths. lia.
Qed.

(** [loads] gives its decoder a bound that is never reached: it fails only
    where the text is not one JSON value. *)
Lemma loads_fed (s : string) :
  scan_once (2 * String.length s + 2) (skip_ws s) <> Starved.
Proof. apply scan_fed. pose proof (skip_ws_length s). lia. Qed.

End JsonFacts.

(** ** Facts about the converter *)

Module ConverterFacts.

Lemma clean_length (s : string) :
  (String.length (_clean s) <= String.length s)%nat.
Proof.
  unfold _clean.
  destruct (index s ":"); [lia|].
  destruct (index s "("); [lia|].
  destruct (_ <? _); [|lia].
  destruct (rindex s ")"); [lia|].
  pose proof (length_slice s (z0 + 1) z1). lia.
Qed.

Lemma split_length (s opening closing : string) (delim : ascii) (p : string) :
  In p (split_fields_string s opening closing delim) ->
  (String.length p <= String.length s)%nat.
Proof.
  rewrite split_pieces. intros Hin.
  pose proof (pieces_length opening closing delim s 0 "") as HF.
  rewrite Forall_forall in HF. apply list_elem_of_In in Hin.
  apply HF in Hin. simpl in Hin. lia.
Qed.

(** The text between the parentheses is strictly shorter than the value
    it is cut from. *)
Lemma inner_shorter (v : string) (o c : Z) :
  index v "(" = inr o ->
  (String.length (slice v (o + 1) c) < String.length v)%nat.
Proof.
  unfold index. destruct (first_pos "(" v) as [i|] eqn:Hi; [|discriminate].
  intros [= <-]. apply first_pos_lt in Hi.
  pose proof (length_slice v (Z.of_nat i + 1) c) as H.
  rewrite clamp_id in H by (unfold len; lia). lia.
Qed.

Lemma value_shorter (fs : string) (colon : Z) :
  index fs ":" = inr colon ->
  (String.length (slice_from fs (colon + 1)) < String.length fs)%nat.
Proof.
  unfold index. destruct (first_pos ":" fs) as [i|] eqn:Hi; [|discriminate].
  intros [= <-]. apply first_pos_lt in Hi.
  rewrite length_slice_from, clamp_id by (unfold len; lia). lia.
Qed.

Section Ext.

Variable loads : string -> result value.
Variables f g : string -> option (result (gmap string value)).

Lemma convert_value_string_ext (v : string) :
  (forall t, (String.length t < String.length v)%nat -> f t = g t) ->
  _convert_value_string loads f v = _convert_value_string loads g v.
Proof.
  intros H. unfold _convert_value_string.
  destruct (index v "(") as [|o] eqn:Ho; [reflexivity|].
  destruct (rindex v ")") as [|c]; [reflexivity|].
  now rewrite (H _ (inner_shorter v o c Ho)).
Qed.

Lemma get_value_ext (fs : string) :
  (forall t, (String.length t < String.length fs)%nat -> f t = g t) ->
  _get_value loads f fs = _get_value loads g fs.
Proof.
  intros H. unfold _get_value.
  destruct (index fs ":") as [|colon] eqn:Hc; [reflexivity|].
  apply convert_value_string_ext. intros t Ht. apply H.
  pose proof (value_shorter fs colon Hc). lia.
Qed.

Lemma fill_ext (l : list string) (d : gmap string value) :
  (forall fs, In fs l -> _get_value loads f fs = _get_value loads g fs) ->
  fill loads f l d = fill loads g l d.
Proof.
  revert d; induction l as [|fs l IH]; intros d H; simpl; [reflexivity|].
  rewrite (H fs) by now left.
  destruct (_get_value loads g fs) as [[e|v]|]; try reflexivity.
  apply IH. intros fs' Hin. apply H. now right.
Qed.

Lemma convert_body_ext (s : string) :
  (forall t, (String.length t < String.length s)%nat -> f t = g t) ->
  convert_body loads f s = convert_body loads g s.
Proof.
  intros H. unfold convert_body, _convert_from_field_strings.
  apply fill_ext. intros fs Hin. apply get_value_ext. intros t Ht.
  apply H. apply split_length in Hin. pose proof (clean_length s). lia.
Qed.

End Ext.

Section Calls.

Variable loads : string -> result value.
Variable f : string -> option (result (gmap string value)).

(** Whatever the decoder does, the reading of a text raises no
    [ValueError]. *)
Lemma literal_or_text_catches (v : string) :
  literal_or_text loads v <> inl ValueError.
Proof.
  unfold literal_or_text. destruct (loads v) as [[]|]; discriminate.
Qed.

(** Whatever the decoder and the nested call do, the value conversion
    raises no [ValueError]: the handlers catch it. *)
Lemma convert_value_string_catches (v : string) :
  _convert_value_string loads f v <> Some (inl ValueError).
Proof.
  pose proof literal_or_text_catches as Hl.
  unfold _convert_value_string.
  destruct (index v "("); [intros [= H]; now apply Hl in H|].
  destruct (rindex v ")"); [intros [= H]; now apply Hl in H|].
  destruct (f _) as [[[]|d]|]; try discriminate.
  intros [= H]. now apply Hl in H.
Qed.

(** A field raises [ValueError] exactly when it has no colon. *)
Lemma get_value_value_error (fs : string) :
  _get_value loads f fs = Some (inl ValueError)
  <-> index fs ":" = inl ValueError.
Proof.
  unfold _get_value. destruct (index fs ":") as [e|colon] eqn:Hc.
  - unfold index in Hc. destruct (first_pos ":" fs); [discriminate|].
    injection Hc as <-. split; reflexivity.
  - split; [|discriminate]. intros H.
    now apply convert_value_string_catches in H.
Qed.

(** The comprehension raises [ValueError] at the first field without a
    colon, when the fields before it have returned their values. *)
Lemma fill_raises_at (before after : list string) (bad : string) :
  forall d,
    (forall fs, In fs before ->
                exists v, _get_value loads f fs = Some (inr v)) ->
    index bad ":" = inl ValueError ->
    fill loads f (before ++ bad :: after) d = Some (inl ValueError).
Proof.
  induction before as [|fs before IH]; intros d H Hbad; simpl.
  - unfold _get_value. now rewrite Hbad.
  - destruct (H fs (or_introl eq_refl)) as [v ->].
    apply IH; [|assumption]. intros fs' Hin. apply H. now right.
Qed.

(** The comprehension raises [ValueError] only for a field without a
    colon. *)
Lemma fill_value_error (l : list string) :
  forall d,
    fill loads f l d = Some (inl ValueError) ->
    exists fs, In fs l /\ index fs ":" = inl ValueError.
Proof.
  induction l as [|fs l IH]; intros d H; simpl in H; [discriminate|].
  destruct (_get_value loads f fs) as [[e|v]|] eqn:Hv; [| |discriminate].
  - injection H as ->. apply get_value_value_error in Hv.
    exists fs. split; [now left|assumption].
  - apply IH in H as (fs' & Hin & Hbad). exists fs'. split; [now right|assumption].
Qed.

(** A call is cut short only when the nested call it makes is. *)
Lemma convert_value_string_not_cut (v : string) :
  (forall t, (String.length t < String.length v)%nat -> f t <> None) ->
  _convert_value_string loads f v <> None.
Proof.
  intros H. unfold _convert_value_string.
  destruct (index v "(") as [|o] eqn:Ho; [discriminate|].
  destruct (rindex v ")") as [|c]; [discriminate|].
  pose proof (H _ (inner_shorter v o c Ho)) as Hn.
  destruct (f (slice v (o + 1) c)) as [[[]|d]|]; easy.
Qed.

Lemma get_value_not_cut (fs : string) :
  (forall t, (String.length t < String.length fs)%nat -> f t <> None) ->
  _get_value loads f fs <> None.
Proof.
  intros H. unfold _get_value.
  destruct (index fs ":") as [e|colon] eqn:Hc; [discriminate|].
  apply convert_value_string_not_cut. intros t Ht. apply H.
  pose proof (value_shorter fs colon Hc). lia.
Qed.

Lemma fill_not_cut (l : list string) (d : gmap string value) :
  (forall fs, In fs l -> _get_value loads f fs <> None) ->
  fill loads f l d <> None.
Proof.
  revert d; induction l as [|fs l IH]; intros d H; simpl; [discriminate|].
  pose proof (H fs (or_introl eq_refl)) as Hn.
  destruct (_get_value loads f fs) as [[e|v]|]; [discriminate| |easy].
  apply IH. intros fs' Hin. apply H. now right.
Qed.

Lemma convert_body_not_cut (s : string) :
  (forall t, (String.length t < String.length s)%nat -> f t <> None) ->
  convert_body loads f s <> None.
Proof.
  intros H. unfold convert_body, _convert_from_field_strings.
  apply fill_not_cut. intros fs Hin. apply get_value_not_cut. intros t Ht.
  apply H. apply split_length in Hin. pose proof (clean_length s). lia.
Qed.

End Calls.

Lemma convert_upto_not_cut (n : nat) (s : string) :
  (String.length s < n)%nat -> convert_upto n s <> None.
Proof.
  revert s; induction n as [|n IH]; intros s Hn; [lia|].
  simpl. apply convert_body_not_cut. intros t Ht. apply IH. lia.
Qed.

Lemma convert_upto_stable (n m : nat) (s : string) :
  (String.length s < n)%nat -> (String.length s < m)%nat ->
  convert_upto n s = convert_upto m s.
Proof.
  revert m s; induction n as [|n IH]; intros [|m] s Hn Hm; try lia.
  simpl. apply convert_body_ext. intros t Ht. apply IH; lia.
Qed.

(** [convert] is the function its source text defines: the body, with
    [convert] itself for the nested call. *)
Lemma convert_unfold (s : string) :
  convert s = convert_body Json.loads convert s.
Proof.
  unfold convert at 1. simpl. apply convert_body_ext. intros t Ht.
  unfold convert. apply convert_upto_stable; lia.
Qed.

(** The bound on the nesting is never reached: no call of [convert] is
    cut short. *)
Lemma convert_not_cut (s : string) : convert s <> None.
Proof. apply convert_upto_not_cut. lia. Qed.

End ConverterFacts.

Import ConverterFacts.

(** ** Facts about the matcher *)

Module ReFacts.

Lemma orelse_some {R : Type} (x y : option R) (v : R) :
  orelse x y = Some v -> x = Some v \/ y = Some v.
Proof. destruct x; simpl; auto. Qed.

Lemma rep_greedy_reach {R : Type} (c : ascii -> bool) (s : string) :
  forall (min : nat) (pv : option ascii) (k : pos -> option R) (v : R),
    rep_greedy c min pv s k = Some v ->
    exists p' run, k p' = Some v /\ s = run ++ rest p'
                   /\ (min <= String.length run)%nat.
Proof.
  induction s as [|a s IH]; intros min pv k v H; simpl in H.
  - destruct min; [|discriminate]. exists (mkPos pv ""), "". auto.
  - assert (Hstop : match min with O => k (mkPos pv (String a s)) | S _ => None end = Some v ->
                    exists p' run, k p' = Some v /\ String a s = run ++ rest p'
                                   /\ (min <= String.length run)%nat).
    { destruct min; [|discriminate]. intros Hk.
      exists (mkPos pv (String a s)), "". auto. }
    destruct (c a); [|auto].
    apply orelse_some in H as [H|H]; [|auto].
    apply IH in H as (p' & run & Hk & Hs & Hm).
    exists p', (String a run). split; [assumption|]. split.
    + rewrite append_cons. now f_equal.
    + simpl. lia.
Qed.

Lemma rep_lazy_reach {R : Type} (c : ascii -> bool) (s : string) :
  forall (min : nat) (pv : option ascii) (k : pos -> option R) (v : R),
    rep_lazy c min pv s k = Some v ->
    exists p' run, k p' = Some v /\ s = run ++ rest p'
                   /\ (min <= String.length run)%nat.
Proof.
  induction s as [|a s IH]; intros min pv k v H; simpl in H.
  - destruct min; [|discriminate]. exists (mkPos pv ""), "". auto.
  - assert (Hstop : match min with O => k (mkPos pv (String a s)) | S _ => None end = Some v ->
                    exists p' run, k p' = Some v /\ String a s = run ++ rest p'
                                   /\ (min <= String.length run)%nat).
    { destruct min; [|discriminate]. intros Hk.
      exists (mkPos pv (String a s)), "". auto. }
    destruct (c a); [|auto].
    apply orelse_some in H as [H|H]; [auto|].
    apply IH in H as (p' & run & Hk & Hs & Hm).
    exists p', (String a run). split; [assumption|]. split.
    + rewrite append_cons. now f_equal.
    + simpl. lia.
Qed.

(** Whatever the matcher returns, it returns from its continuation, called
    at a position and with captures that [reach] allows. *)
Lemma run_reach {R : Type} (r : regex) :
  forall (p : pos) (cs : caps) (k : pos -> caps -> option R) (v : R),
    run r p cs k = Some v ->
    exists p' cs', reach r p cs p' cs' /\ k p' cs' = Some v.
Proof.
  induction r as [| |s|c|g min c|r1 IH1|r1 IH1 r2 IH2|n r1 IH1|r1 IH1 r2 IH2];
    intros p cs k v H; simpl in H.
  - exists p, cs. simpl. auto.
  - destruct (at_bol p) eqn:Hb; [|discriminate]. exists p, cs. simpl. auto.
  - destruct (eat s p) as [p'|] eqn:He; [|discriminate].
    exists p', cs. simpl. auto.
  - destruct (rest p) as [|a s'] eqn:Hr; [discriminate|].
    destruct (c a) eqn:Hc; [|discriminate].
    exists (mkPos (Some a) s'), cs. simpl. eauto 10.
  - destruct g.
    + apply rep_greedy_reach in H as (p' & run & Hk & Hs & Hm).
      exists p', cs. simpl. eauto 10.
    + apply rep_lazy_reach in H as (p' & run & Hk & Hs & Hm).
      exists p', cs. simpl. eauto 10.
  - apply orelse_some in H as [H|H].
    + apply IH1 in H as (p' & cs' & Hr & Hk). exists p', cs'. simpl. auto.
    + exists p, cs. simpl. auto.
  - apply orelse_some in H as [H|H].
    + apply IH1 in H as (p' & cs' & Hr & Hk). exists p', cs'. simpl. auto.
    + apply IH2 in H as (p' & cs' & Hr & Hk). exists p', cs'. simpl. auto.
  - apply IH1 in H as (p' & cs' & Hr & Hk).
    exists p', ((n, consumed p p') :: cs'). simpl. eauto.
  - apply IH1 in H as (p1 & cs1 & Hr1 & H).
    apply IH2 in H as (p' & cs' & Hr2 & Hk).
    exists p', cs'. simpl. eauto.
Qed.

Lemma match_at_reach (r : regex) (p p' : pos) (cs : caps) :
  match_at r p = Some (p', cs) -> reach r p [] p' cs.
Proof.
  intros H. apply run_reach in H as (p1 & cs1 & Hr & [= -> ->]). exact Hr.
Qed.

(** Every element of a scan is the captures of a match at some position. *)
Lemma scan_matches (r : regex) (s : string) :
  forall (skip : nat) (pv : option ascii) (cs : caps),
    In cs (scan r skip pv s) ->
    exists p p', match_at r p = Some (p', cs).
Proof.
  induction s as [|a s IH]; intros skip pv cs Hin; simpl in Hin.
  - destruct skip; [|contradiction].
    destruct (match_at r (mkPos pv "")) as [[p' cs']|] eqn:Hm;
      [|contradiction].
    destruct Hin as [<-|[]]. eauto.
  - destruct skip; [|eauto].
    destruct (match_at r (mkPos pv (String a s))) as [[p' cs']|] eqn:Hm;
      [|eauto].
    destruct Hin as [<-|Hin]; eauto.
Qed.

End ReFacts.

Import ReFacts.

(** ** Facts about the field pattern *)

Module FieldFacts.

Lemma eat_rest (lit : string) :
  forall p p', eat lit p = Some p' -> rest p = lit ++ rest p'.
Proof.
  induction lit as [|c lit IH]; intros p p' H; simpl in H.
  - now injection H as <-.
  - destruct (rest p) as [|a s'] eqn:Hr; [discriminate|].
    destruct (Ascii.eqb_spec a c) as [->|]; [|discriminate].
    apply IH in H. simpl in H. rewrite append_cons. now f_equal.
Qed.

Lemma consumed_append (run : string) (p p' : pos) :
  rest p = run ++ rest p' -> consumed p p' = run.
Proof.
  intros H. unfold consumed. rewrite H, length_append.
  apply take_append. lia.
Qed.

Lemma consumed_eat (lit : string) (p p' : pos) :
  eat lit p = Some p' -> consumed p p' = lit.
Proof. intros H. apply consumed_append. now apply eat_rest. Qed.

Lemma consumed_one (a : ascii) (s' : string) (p : pos) (pv : option ascii) :
  rest p = String a s' -> consumed p (mkPos pv s') = String a "".
Proof. intros H. now apply consumed_append. Qed.

Ltac open_reach H :=
  cbn [reach cat fold_right] in H;
  repeat match goal with
         | H : exists _, _ |- _ => destruct H
         | H : _ /\ _ |- _ => destruct H
         end.

(** What a match of the field pattern can have captured as its first two
    groups. *)
Lemma fields_regex_groups (p p' : pos) (cs : caps) :
  reach fields_regex p [] p' cs ->
  String.length (group cs 1) = 1%nat
  /\ (group cs 2 = "" \/ group cs 2 = "optional" \/ group cs 2 = "required").
Proof.
  intros H. unfold fields_regex in H. open_reach H.
  repeat match goal with
         | H : _ \/ _ |- _ => destruct H
         | H : exists _, _ |- _ => destruct H
         | H : _ /\ _ |- _ => destruct H
         end; subst; cbn [group Nat.eqb];
    repeat match goal with
           | H : eat _ _ = Some _ |- _ => apply consumed_eat in H
           end;
    try match goal with
        | H : rest ?p = String ?a ?s |- context [consumed ?p (mkPos ?pv ?s)] =>
            rewrite (consumed_one a s p pv H)
        end;
    (split; [reflexivity|]); auto.
Qed.

End FieldFacts.

Import FieldFacts.

(** ** Facts about the parser *)

Module ParserFacts.

Lemma of_list_lookup {V : Type} (l : list (string * V)) (k : string) (v : V) :
  Dict.of_list l !! k = Some v -> In (k, v) l.
Proof.
  unfold Dict.of_list.
  assert (H : forall m : gmap string V,
             fold_left (fun m kv => <[kv.1 := kv.2]> m) l m !! k = Some v ->
             In (k, v) l \/ m !! k = Some v).
  { induction l as [|[k' v'] l IH]; intros m Hm; simpl in Hm; [auto|].
    apply IH in Hm as [Hin|Hm]; [left; now right|].
    simpl in Hm. destruct (decide (k' = k)) as [->|Hne].
    - rewrite lookup_insert_eq in Hm. injection Hm as ->. left. now left.
    - rewrite lookup_insert_ne in Hm by assumption. auto. }
  intros Hl. apply H in Hl as [Hin|He]; [assumption|].
  now rewrite lookup_empty in He.
Qed.

(** The first two groups of every tuple [findall] returns for the field
    pattern. *)
Lemma findall_fields_groups (s : string) (m : field_match) :
  In m (findall5 fields_regex s) ->
  String.length m.1.1.1.1 = 1%nat
  /\ (m.1.1.1.2 = "" \/ m.1.1.1.2 = "optional" \/ m.1.1.1.2 = "required").
Proof.
  unfold findall5, matches. rewrite in_map_iff. intros (cs & <- & Hin).
  apply scan_matches in Hin as (p & p' & Hm).
  apply match_at_reach in Hm. simpl. now apply fields_regex_groups in Hm.
Qed.

Lemma construct_of_match (m : field_match) :
  String.length m.1.1.1.1 = 1%nat
  /\ (m.1.1.1.2 = "" \/ m.1.1.1.2 = "optional" \/ m.1.1.1.2 = "required") ->
  String.length (ThriftStruct.Field.index (_construct_field_from_field_match m))
  = 1%nat
  /\ ThriftStruct.Field.oneway (_construct_field_from_field_match m) = false.
Proof.
  destruct m as [[[[i q] ty] n] d]. simpl. intros [Hi Hq]. split; [exact Hi|].
  destruct Hq as [-> | [-> | ->]]; reflexivity.
Qed.

(** Every field of a struct body has a one-character index and a false
    flag. *)
Lemma struct_fields_shape (definition name : string)
    (field : ThriftStruct.Field.t) :
  _parse_fields_from_struct_definition definition !! name = Some field ->
  String.length (ThriftStruct.Field.index field) = 1%nat
  /\ ThriftStruct.Field.oneway field = false.
Proof.
  unfold _parse_fields_from_struct_definition, by_field_name. intros H.
  apply of_list_lookup in H. rewrite in_map_iff in H.
  destruct H as (f & [= _ ->] & Hin). rewrite in_map_iff in Hin.
  destruct Hin as (m & <- & Hin).
  apply construct_of_match. now apply findall_fields_groups in Hin.
Qed.

(** The same for every field of a parameter list. *)
Lemma parameter_fields_shape (fields_string : string)
    (field : ThriftStruct.Field.t) :
  In field (_parse_fields_from_fields_string fields_string) ->
  String.length (ThriftStruct.Field.index field) = 1%nat
  /\ ThriftStruct.Field.oneway field = false.
Proof.
  unfold _parse_fields_from_fields_string. rewrite in_map_iff.
  intros (m & <- & Hin). apply construct_of_match.
  rewrite in_flat_map in Hin. destruct Hin as (ms & Hms & Hin).
  rewrite in_map_iff in Hms. destruct Hms as (fs & <- & _).
  destruct (findall5 fields_regex (fs ++ String nl "")) as [|m0 rest] eqn:Hf;
    [contradiction|].
  destruct Hin as [<-|[]].
  apply (findall_fields_groups (fs ++ String nl "")). rewrite Hf. now left.
Qed.

End ParserFacts.

Import ParserFacts.

(** ** Properties of the request-literal converter *)

(** C1: [convert("Req(ids:[1,2,3],note:hi)")] returns the mapping of
    ["ids"] to the list 1, 2, 3 and of ["note"] to the string ["hi"].  The
    wrapper is stripped first, and the cleaned text is cut into its two
    fields by the splitter that counts the parentheses and the square
    brackets in one depth and cuts at a comma only at depth zero. *)
Theorem convert_ids_note :
  convert "Req(ids:[1,2,3],note:hi)"
  = Some (inr {[ "ids" := VList [VInt 1; VInt 2; VInt 3];
                 "note" := VStr "hi" ]})
  /\ _clean "Req(ids:[1,2,3],note:hi)" = "ids:[1,2,3],note:hi"
  /\ split_fields_string "ids:[1,2,3],note:hi" "([" "])" ","
     = ["ids:[1,2,3]"; "note:hi"]
  /\ (forall s,
        split_fields_string s "([" "])" "," = pieces "([" "])" "," 0 "" s).
Proof.
  split; [vm_compute; reflexivity|].
  split; [vm_compute; reflexivity|].
  split; [vm_compute; reflexivity|].
  intros s. apply split_pieces.
Qed.

(** C7: a value with a first ['('] and a last [')'] is cut to the text
    strictly between them and [convert], the top-level function, is applied
    to that text.  For every such value and whatever the nested call does:
    the mapping it returns is the value; when it raises [ValueError], as on
    an inner text that is no literal, the value is the JSON reading of the
    inner text, or the inner text; any other exception it raises is passed
    on.  In particular [convert("Req(inner:Inner(x:1,y:2))")] maps
    ["inner"] to the mapping of ["x"] to 1 and ["y"] to 2. *)
Theorem convert_nested_literal :
  (forall loads nested value_string o c,
     index value_string "(" = inr o ->
     rindex value_string ")" = inr c ->
     let inner := slice value_string (o + 1) c in
     (forall d,
        nested inner = Some (inr d) ->
        _convert_value_string loads nested value_string
        = Some (inr (VDict d)))
     /\ (nested inner = Some (inl ValueError) ->
         _convert_value_string loads nested value_string
         = Some (literal_or_text loads inner))
     /\ (forall e,
           e <> ValueError ->
           nested inner = Some (inl e) ->
           _convert_value_string loads nested value_string = Some (inl e)))
  /\ (forall s, convert s = convert_body Json.loads convert s)
  /\ convert "Req(inner:Inner(x:1,y:2))"
     = Some (inr {[ "inner" := VDict {[ "x" := VInt 1; "y" := VInt 2 ]} ]})
  /\ _convert_value_string Json.loads convert "f(1)" = Some (inr (VInt 1))
  /\ _convert_value_string Json.loads convert "B(badfield)"
     = Some (inr (VStr "badfield"))
  /\ _convert_value_string Json.loads convert ")(" = Some (inr (VStr "")).
Proof.
  split; [|split; [|repeat split; vm_compute; reflexivity]].
  - intros loads nested v o c Ho Hc inner. subst inner.
    unfold _convert_value_string. rewrite Ho, Hc.
    split; [|split].
    + intros d Hd. now rewrite Hd.
    + intros He. now rewrite He.
    + intros e Hne He. rewrite He. now destruct e.
  - apply convert_unfold.
Qed.

Lemma convert_nested_literal_witness :
  _convert_value_string Json.loads convert "Inner(x:1,y:2)"
  = Some (inr (VDict {[ "x" := VInt 1; "y" := VInt 2 ]})).
Proof.
  apply (proj1 (proj1 convert_nested_literal Json.loads convert
                  "Inner(x:1,y:2)" 5 13 eq_refl eq_refl)).
  vm_compute. reflexivity.
Defined.

(** C8, as the code has it: when a field of the cleaned top-level text has
    no [':'] and the fields before it have returned their values, the body
    of [convert] raises [ValueError] to its caller, whatever the decoder
    and the nested calls do; [convert] is that body with [json.loads] and
    with itself for the nested call. *)
Theorem convert_missing_colon_raises :
  (forall loads nested s before bad after,
     split_fields_string (_clean s) "([" "])" ","
     = (before ++ bad :: after)%list ->
     index bad ":" = inl ValueError ->
     (forall fs, In fs before ->
                 exists v, _get_value loads nested fs = Some (inr v)) ->
     convert_body loads nested s = Some (inl ValueError))
  /\ (forall s, convert s = convert_body Json.loads convert s)
  /\ convert "badfield" = Some (inl ValueError).
Proof.
  split; [|split; [apply convert_unfold|vm_compute; reflexivity]].
  intros loads nested s before bad after Hs Hbad Hbefore.
  unfold convert_body, _convert_from_field_strings. rewrite Hs.
  now apply fill_raises_at.
Qed.

Lemma convert_missing_colon_raises_witness :
  convert_body Json.loads convert "a:1,badfield" = Some (inl ValueError).
Proof.
  apply (proj1 convert_missing_colon_raises Json.loads convert
           "a:1,badfield" ["a:1"] "badfield" []).
  - vm_compute. reflexivity.
  - reflexivity.
  - intros fs [<-|[]]. exists (VInt 1). vm_compute. reflexivity.
Defined.

(** C8 fails one level down: the field ["badfield"] of the nested literal
    has no [':'] and the nested call raises, yet the outer conversion
    returns a mapping. *)
Lemma nested_missing_colon_swallowed :
  index "badfield" ":" = inl ValueError
  /\ slice "B(badfield)" 2 10 = "badfield"
  /\ convert "badfield" = Some (inl ValueError)
  /\ convert "a:B(badfield)" = Some (inr {[ "a" := VStr "badfield" ]}).
Proof. repeat split; vm_compute; reflexivity. Qed.

(** ** Properties of the IDL extractor *)

(** C2 fails on the code: the first group of the field pattern is the class
    of one digit or plus sign, so the line [10: string b] matches nowhere and
    the struct is left with the field [a] alone; no field of any struct body
    has an index of two characters.  One-digit indices are kept as declared,
    in any order. *)
Theorem two_digit_index_line_dropped :
  findall5 fields_regex (text ["  10: string b"]) = []
  /\ _parse_fields_from_struct_definition struct_with_index_10
     = {[ "a" := ThriftStruct.Field.mk "1" "i32" "a" false None ]}
  /\ _parse_fields_from_struct_definition struct_out_of_order
     = {[ "b" := ThriftStruct.Field.mk "5" "string" "b" false None;
          "a" := ThriftStruct.Field.mk "1" "i32" "a" false None ]}
  /\ (forall definition name field,
        _parse_fields_from_struct_definition definition !! name = Some field ->
        String.length (ThriftStruct.Field.index field) = 1%nat).
Proof.
  split; [vm_compute; reflexivity|].
  split; [vm_compute; reflexivity|].
  split; [vm_compute; reflexivity|].
  intros definition name field H. now apply struct_fields_shape in H.
Qed.

(** C3 fails on the code: the qualifier is compared with ['oneway'], which
    the pattern cannot capture, so the only attribute derived from it is
    false on every field; a required, an optional and an unqualified
    declaration give the same field. *)
Theorem qualifier_not_recorded :
  _parse_fields_from_struct_definition struct_required
  = {[ "a" := ThriftStruct.Field.mk "1" "i32" "a" false None ]}
  /\ _parse_fields_from_struct_definition struct_optional
     = _parse_fields_from_struct_definition struct_required
  /\ _parse_fields_from_struct_definition struct_unqualified
     = _parse_fields_from_struct_definition struct_required
  /\ _parse_fields_from_fields_string "1: required i32 a, 2: optional i32 b"
     = _parse_fields_from_fields_string "1: i32 a, 2: i32 b"
  /\ (forall index field_type name default,
        _construct_field_from_field_match
          (index, "required", field_type, name, default)
        = _construct_field_from_field_match
            (index, "", field_type, name, default)
        /\ _construct_field_from_field_match
             (index, "optional", field_type, name, default)
           = _construct_field_from_field_match
               (index, "", field_type, name, default))
  /\ (forall definition name field,
        _parse_fields_from_struct_definition definition !! name = Some field ->
        ThriftStruct.Field.oneway field = false)
  /\ (forall fields_string field,
        In field (_parse_fields_from_fields_string fields_string) ->
        ThriftStruct.Field.oneway field = false).
Proof.
  split; [vm_compute; reflexivity|].
  split; [vm_compute; reflexivity|].
  split; [vm_compute; reflexivity|].
  split; [vm_compute; reflexivity|].
  split; [intros; split; reflexivity|].
  split.
  - intros definition name field H. now apply struct_fields_shape in H.
  - intros fields_string field H. now apply parameter_fields_shape in H.
Qed.

(** C4 fails on the code: a service body with no endpoint line makes the
    unpacking of the transposed matches raise [ValueError], and [parse]
    raises with it.  The other non-matches are passed over: a parameter
    substring that is empty or malformed gives no field. *)
Theorem service_without_endpoints_raises :
  findall4 endpoints_regex service_without_endpoints = []
  /\ parse_content service_without_endpoints = inl ValueError
  /\ (forall definition,
        findall4 endpoints_regex definition = [] ->
        _parse_endpoints_from_service_definition definition = inl ValueError)
  /\ _parse_fields_from_fields_string "" = []
  /\ _parse_fields_from_fields_string "1: i32 a,,what" 
     = [ThriftStruct.Field.mk "1" "i32" "a" false None].
Proof.
  split; [vm_compute; reflexivity|].
  split; [vm_compute; reflexivity|].
  split.
  - intros definition H. unfold _parse_endpoints_from_service_definition.
    now rewrite H.
  - split; vm_compute; reflexivity.
Qed.

(** C5 fails on the code: a text of three blocks whose service has no
    endpoint yields no entry at all, [parse] raises; with an endpoint in the
    service the same text yields its three entries, each under its kind. *)
Theorem empty_service_loses_all_entries :
  parse_content idl_with_empty_service = inl ValueError
  /\ findall2 services_regex idl_with_empty_service
     = [(text ["service Empty {"] ++ "}", "Empty")]
  /\ (exists r,
        parse_content idl_with_endpoint = inr r
        /\ dom (Result.structs r) = {[ "Point" ]}
        /\ dom (Result.services r) = {[ "Geo" ]}
        /\ Result.enums r = {[ "Colour" ]}).
Proof.
  split; [vm_compute; reflexivity|].
  split; [vm_compute; reflexivity|].
  destruct (parse_content idl_with_endpoint) as [e|r] eqn:Hp;
    [vm_compute in Hp; discriminate|].
  exists r. split; [reflexivity|].
  assert (Hr : inr r = parse_content idl_with_endpoint) by now rewrite Hp.
  vm_compute in Hr. injection Hr as ->.
  repeat split; vm_compute; reflexivity.
Qed.

(** C9: on a parser that holds a parse result, the struct lookup raises
    [KeyError] with the name when the struct is absent, and the endpoint
    lookup raises [KeyError] when the service is absent or when the service
    is there and the method is absent; no empty mapping is returned.  A
    lookup only reads the parser, so after a failed one the same result still
    answers the lookups of the names it holds. *)
Theorem lookup_absent_raises :
  forall (self : ThriftParser.t) (r : Result.t),
    _result self = Some r ->
    (forall struct_name,
       Result.structs r !! struct_name = None ->
       get_fields_for_struct_name self struct_name
       = inl (KeyError struct_name))
    /\ (forall service_name method_name,
          Result.services r !! service_name = None ->
          get_fields_for_endpoint self service_name method_name
          = inl (KeyError service_name))
    /\ (forall service_name service method_name,
          Result.services r !! service_name = Some service ->
          ThriftService.endpoints service !! method_name = None ->
          get_fields_for_endpoint self service_name method_name
          = inl (KeyError method_name))
    /\ (forall struct_name struct,
          Result.structs r !! struct_name = Some struct ->
          get_fields_for_struct_name self struct_name
          = inr (ThriftStruct.fields struct))
    /\ (forall service_name service method_name endpoint,
          Result.services r !! service_name = Some service ->
          ThriftService.endpoints service !! method_name = Some endpoint ->
          get_fields_for_endpoint self service_name method_name
          = inr (ThriftService.Endpoint.fields endpoint)).
Proof.
  intros self r Hr.
  unfold get_fields_for_struct_name, get_fields_for_endpoint, the_result,
    Dict.get.
  rewrite Hr. repeat split.
  - intros n H. now rewrite H.
  - intros s m H. now rewrite H.
  - intros s svc m Hs Hm. now rewrite Hs, Hm.
  - intros n st H. now rewrite H.
  - intros s svc m e Hs He. now rewrite Hs, He.
Qed.

Lemma lookup_absent_raises_witness :
  get_fields_for_struct_name demo_parser "Missing" = inl (KeyError "Missing")
  /\ get_fields_for_endpoint demo_parser "Nowhere" "area"
     = inl (KeyError "Nowhere")
  /\ get_fields_for_endpoint demo_parser "Geo" "volume"
     = inl (KeyError "volume")
  /\ get_fields_for_struct_name demo_parser "Point" = inr demo_fields.
Proof.
  destruct (lookup_absent_raises demo_parser demo_result eq_refl)
    as (H1 & H2 & H3 & H4 & _).
  split; [apply H1; reflexivity|].
  split; [apply H2; reflexivity|].
  split; [eapply H3; reflexivity|].
  apply (H4 "Point" (ThriftStruct.mk "Point" demo_fields)). reflexivity.
Defined.

(** ** Properties of the parameter-list splitter *)

(** C6: on ["a:list<map<string,i32>>,b:2"] the parameter-list splitter
    returns the two substrings ["a:list<map<string,i32>>"] and ["b:2"].  One
    iteration of its loop adds one to the depth on ['<'], takes one off on
    ['>'], cuts at a [','] when the depth is zero and passes over a [','] at
    any other depth; hence the whole loop is [pieces] run with these three
    characters from depth zero. *)
Theorem split_fields_string_generics :
  _split_fields_string "a:list<map<string,i32>>,b:2"
  = ["a:list<map<string,i32>>"; "b:2"]
  /\ (forall s st i,
        _step s st (i, "<"%char)
        = mkState (field_strings st) (bracket_depth st + 1) (last_index st))
  /\ (forall s st i,
        _step s st (i, ">"%char)
        = mkState (field_strings st) (bracket_depth st - 1) (last_index st))
  /\ (forall s st i,
        bracket_depth st = 0 ->
        _step s st (i, ","%char)
        = mkState (field_strings st ++ [slice s (last_index st) i])
                  (bracket_depth st) (i + 1))
  /\ (forall s st i, bracket_depth st <> 0 -> _step s st (i, ","%char) = st)
  /\ (forall s, _split_fields_string s = pieces "<" ">" "," 0 "" s).
Proof.
  split; [vm_compute; reflexivity|].
  split; [reflexivity|]. split; [reflexivity|].
  split; [|split].
  - intros s st i H. unfold _step. cbn. now rewrite H.
  - intros s st i H. unfold _step. cbn.
    destruct (Z.eqb_spec (bracket_depth st) 0); [contradiction|reflexivity].
  - intros s. rewrite _split_split. apply split_pieces.
Qed.

(** C10: the parameter-list splitter is a total function; on every string
    it returns at least one substring (on the empty string exactly the
    empty string), and the substrings joined with [","] give the string
    back. *)
Theorem split_fields_string_lossless :
  _split_fields_string "" = [""]
  /\ forall s,
       (exists p ps, _split_fields_string s = p :: ps)
       /\ join "," (_split_fields_string s) = s.
Proof.
  split; [reflexivity|]. intros s.
  rewrite _split_split, split_pieces. split.
  - pose proof (pieces_nonempty "<" ">" "," s 0 "") as H.
    destruct (pieces "<" ">" "," 0 "" s) as [|p ps]; [congruence|eauto].
  - apply (join_pieces "<" ">" "," s 0 "").
Qed.

(** ** More facts about the string primitives *)

Module SearchFacts.

Lemma first_pos_append_some (c : ascii) (a b : string) (i : nat) :
  first_pos c a = Some i -> first_pos c (a ++ b) = Some i.
Proof.
  revert i; induction a as [|x a IH]; intros i H; simpl in H; [discriminate|].
  rewrite append_cons. simpl. destruct (Ascii.eqb x c); [assumption|].
  destruct (first_pos c a) as [j|]; [|discriminate].
  now rewrite (IH j eq_refl).
Qed.

Lemma first_pos_append_none (c : ascii) (a b : string) :
  first_pos c a = None ->
  first_pos c (a ++ b)
  = option_map (fun i => (String.length a + i)%nat) (first_pos c b).
Proof.
  induction a as [|x a IH]; intros H; simpl in H.
  - rewrite append_nil_l. now destruct (first_pos c b).
  - rewrite append_cons. simpl. destruct (Ascii.eqb x c); [discriminate|].
    destruct (first_pos c a) as [j|]; [discriminate|].
    rewrite (IH eq_refl). now destruct (first_pos c b).
Qed.

Lemma first_pos_head (c : ascii) (s : string) :
  first_pos c (String c s) = Some O.
Proof. simpl. now rewrite Ascii.eqb_refl. Qed.

Lemma first_pos_at_mark (c : ascii) (a rest : string) :
  first_pos c a = None ->
  first_pos c (a ++ String c rest) = Some (String.length a).
Proof.
  intros H. rewrite (first_pos_append_none c a _ H), first_pos_head.
  simpl. f_equal. lia.
Qed.

Lemma first_pos_past_mark (c x : ascii) (a rest : string) (i : nat) :
  first_pos c a = None -> Ascii.eqb x c = false ->
  first_pos c rest = Some i ->
  first_pos c (a ++ String x rest) = Some (String.length a + S i)%nat.
Proof.
  intros Ha Hx Hr. rewrite (first_pos_append_none c a _ Ha).
  simpl. now rewrite Hx, Hr.
Qed.

Lemma last_pos_append (c : ascii) (a b : string) :
  last_pos c (a ++ b)
  = match last_pos c b with
    | Some j => Some (String.length a + j)%nat
    | None => last_pos c a
    end.
Proof.
  induction a as [|x a IH].
  - rewrite append_nil_l. now destruct (last_pos c b).
  - rewrite append_cons. simpl. rewrite IH.
    destruct (last_pos c b); [reflexivity|].
    reflexivity.
Qed.

Lemma last_pos_head_only (c : ascii) (s : string) :
  last_pos c s = None -> last_pos c (String c s) = Some O.
Proof. intros H. simpl. now rewrite H, Ascii.eqb_refl. Qed.

Lemma mem_false_first_pos (c : ascii) (s : string) :
  mem c s = false <-> first_pos c s = None.
Proof. unfold mem. destruct (first_pos c s); split; congruence. Qed.

Lemma take_all (n : nat) (s : string) :
  (String.length s <= n)%nat -> take n s = s.
Proof.
  revert s; induction n as [|n IH]; intros [|a s] H; simpl in *;
    try reflexivity; try lia.
  f_equal. apply IH. lia.
Qed.

Lemma drop_exact (a b : string) : drop (String.length a) (a ++ b) = b.
Proof. induction a as [|x a IH]; [now destruct b|]. exact IH. Qed.

(** The slice between two marks of a text built from its parts. *)
Lemma slice_middle (a b c : string) :
  slice (a ++ b ++ c) (Z.of_nat (String.length a))
        (Z.of_nat (String.length a + String.length b))
  = b.
Proof.
  unfold slice, len. rewrite !length_append.
  rewrite !clamp_id by lia. rewrite Nat2Z.id, drop_exact.
  apply take_append. lia.
Qed.

End SearchFacts.

Import SearchFacts.

(** ** More facts about the converter *)

Module ConverterMore.

Lemma last_pos_none (c : ascii) (s : string) :
  first_pos c s = None -> last_pos c s = None.
Proof.
  induction s as [|a s IH]; simpl; [reflexivity|].
  destruct (Ascii.eqb a c); [discriminate|].
  destruct (first_pos c s); [discriminate|]. intros _. now rewrite IH.
Qed.

Lemma mem_cons (c a : ascii) (s : string) :
  mem c (String a s) = Ascii.eqb a c || mem c s.
Proof.
  unfold mem. simpl. destruct (Ascii.eqb a c); [reflexivity|].
  now destruct (first_pos c s).
Qed.

Lemma index_mem (s : string) (c : ascii) :
  index s c = inl ValueError <-> mem c s = false.
Proof.
  unfold index, mem. destruct (first_pos c s); split; congruence.
Qed.

Section Nested.

(** The decoder and the converter that [_convert_value_string] calls. *)
Variable loads : string -> result value.
Variable nested : string -> option (result (gmap string value)).

Lemma fill_dom (l : list string) :
  forall d d',
    fill loads nested l d = Some (inr d') ->
    dom d' = dom d ∪ list_to_set (map _get_key l).
Proof.
  induction l as [|fs l IH]; intros d d' H; simpl in H.
  - injection H as <-. simpl. now rewrite union_empty_r_L.
  - destruct (_get_value loads nested fs) as [[e|v]|]; try discriminate.
    apply IH in H. rewrite H, dom_insert_L. simpl.
    rewrite (union_comm_L {[_get_key fs]} (dom d)).
    now rewrite union_assoc_L.
Qed.

Lemma fill_keeps (l : list string) (k : string) :
  forall d d',
    fill loads nested l d = Some (inr d') ->
    (forall fs, In fs l -> _get_key fs <> k) ->
    d' !! k = d !! k.
Proof.
  induction l as [|fs l IH]; intros d d' H Hk; simpl in H.
  - now injection H as <-.
  - destruct (_get_value loads nested fs) as [[e|v]|]; try discriminate.
    rewrite (IH _ _ H) by (intros fs' Hin; apply Hk; now right).
    apply lookup_insert_ne. apply Hk. now left.
Qed.

Lemma fill_last_wins (l1 l2 : list string) (fs : string) (v : value) :
  forall d d',
    fill loads nested (l1 ++ fs :: l2) d = Some (inr d') ->
    _get_value loads nested fs = Some (inr v) ->
    (forall fs', In fs' l2 -> _get_key fs' <> _get_key fs) ->
    d' !! _get_key fs = Some v.
Proof.
  induction l1 as [|g l1 IH]; intros d d' H Hv Hk; simpl in H.
  - rewrite Hv in H. rewrite (fill_keeps l2 (_get_key fs) _ _ H Hk).
    apply lookup_insert_eq.
  - destruct (_get_value loads nested g) as [[e|x]|]; try discriminate.
    eapply IH; eassumption.
Qed.

(** The comprehension returns when the value of every field is
    returned, and only then. *)
Lemma fill_returns (l : list string) :
  forall d,
    (forall fs, In fs l ->
                exists v, _get_value loads nested fs = Some (inr v)) ->
    exists d', fill loads nested l d = Some (inr d').
Proof.
  induction l as [|fs l IH]; intros d H; simpl; [eauto|].
  destruct (H fs (or_introl eq_refl)) as [v ->].
  apply IH. intros fs' Hin. apply H. now right.
Qed.

Lemma fill_returned (l : list string) :
  forall d d',
    fill loads nested l d = Some (inr d') ->
    forall fs, In fs l ->
               exists v, _get_value loads nested fs = Some (inr v).
Proof.
  induction l as [|fs l IH]; intros d d' H g Hin; [easy|].
  simpl in H.
  destruct (_get_value loads nested fs) as [[e|v]|] eqn:Hv;
    try discriminate.
  destruct Hin as [<-|Hin]; [eauto|]. now apply (IH _ _ H).
Qed.

(** An exception of the reading of a text, [ValueError] apart, is one
    the decoder raised. *)
Lemma literal_or_text_passes (v : string) (e : exn) :
  literal_or_text loads v = inl e -> loads v = inl e.
Proof.
  unfold literal_or_text.
  destruct (loads v) as [[]|]; congruence.
Qed.

Lemma convert_value_string_passes (v : string) (e : exn) :
  _convert_value_string loads nested v = Some (inl e) ->
  (exists t, loads t = inl e) \/ (exists t, nested t = Some (inl e)).
Proof.
  unfold _convert_value_string.
  destruct (index v "(");
    [intros [= H]; apply literal_or_text_passes in H; eauto|].
  destruct (rindex v ")");
    [intros [= H]; apply literal_or_text_passes in H; eauto|].
  destruct (nested _) as [[x|d]|] eqn:Hn; [|discriminate..].
  destruct x; intros [= H];
    first [apply literal_or_text_passes in H; now eauto
          | subst e; right; eauto].
Qed.

Lemma convert_value_string_cut (v : string) :
  _convert_value_string loads nested v = None -> exists t, nested t = None.
Proof.
  unfold _convert_value_string.
  destruct (index v "("); [discriminate|].
  destruct (rindex v ")"); [discriminate|].
  destruct (nested _) as [[[]|d]|] eqn:Hn; try discriminate. eauto.
Qed.

End Nested.

End ConverterMore.
Import ConverterMore.

(** X1: the value of a field depends on the nested call of [convert]
    only through texts shorter than the field by two characters at least:
    the text handed to the nested call has lost the colon and the opening
    parenthesis.  Nested calls work on ever shorter texts. *)
Theorem nested_calls_on_shorter_texts :
  forall loads f g field_string,
    (forall t,
       (String.length t + 2 <= String.length field_string)%nat ->
       f t = g t) ->
    _get_value loads f field_string = _get_value loads g field_string.
Proof.
  intros loads f g fs H. unfold _get_value.
  destruct (index fs ":") as [|colon] eqn:Hc; [reflexivity|].
  unfold _convert_value_string.
  destruct (index _ "(") as [|o] eqn:Ho; [reflexivity|].
  destruct (rindex _ ")") as [|c]; [reflexivity|].
  rewrite H; [reflexivity|].
  pose proof (value_shorter fs colon Hc).
  pose proof (inner_shorter _ o c Ho). lia.
Qed.

Lemma nested_calls_on_shorter_texts_witness :
  _get_value Json.loads convert "in:B(x:1)"
  = _get_value Json.loads
      (fun t => if (String.length t + 2 <=? 9)%nat then convert t else None)
      "in:B(x:1)".
Proof.
  apply (nested_calls_on_shorter_texts Json.loads convert
           (fun t => if (String.length t + 2 <=? 9)%nat
                     then convert t else None)
           "in:B(x:1)").
  intros t Ht. apply Nat.leb_le in Ht. simpl in Ht. now rewrite Ht.
Defined.

(** X2: [_get_value] raises [ValueError] exactly on a field without [':'],
    whatever the decoder and the nested converter do; another exception it
    raises is one that the decoder or the nested converter raised. *)
Theorem get_value_raises_iff_no_colon :
  forall loads nested fs,
    (_get_value loads nested fs = Some (inl ValueError)
     <-> mem ":" fs = false)
    /\ (forall e,
          e <> ValueError ->
          _get_value loads nested fs = Some (inl e) ->
          (exists t, loads t = inl e)
          \/ (exists t, nested t = Some (inl e)))
    /\ (_get_value loads nested fs = None -> exists t, nested t = None).
Proof.
  intros loads nested fs. split; [|split].
  - rewrite get_value_value_error. apply index_mem.
  - intros e Hne H. unfold _get_value in H.
    destruct (index fs ":") as [e'|colon] eqn:Hc.
    + unfold index in Hc. destruct (first_pos ":" fs); congruence.
    + now apply convert_value_string_passes in H.
  - intros H. unfold _get_value in H.
    destruct (index fs ":"); [discriminate|].
    now apply convert_value_string_cut in H.
Qed.

(** X3: [_convert_from_field_strings] returns a mapping exactly when the
    value of every field string is returned, which asks for a [':'] in
    every field string; it raises [ValueError] only when a field string
    has no [':'].  This holds whatever the decoder and the nested converter
    do. *)
Theorem field_strings_mapping_or_value_error :
  forall loads nested field_strings,
    ((exists d, _convert_from_field_strings loads nested field_strings
                = Some (inr d))
     <-> (forall fs, In fs field_strings ->
                     exists v, _get_value loads nested fs = Some (inr v)))
    /\ ((exists d, _convert_from_field_strings loads nested field_strings
                   = Some (inr d))
        -> forall fs, In fs field_strings -> mem ":" fs = true)
    /\ (_convert_from_field_strings loads nested field_strings
        = Some (inl ValueError)
        -> exists fs, In fs field_strings /\ mem ":" fs = false).
Proof.
  intros loads nested l. unfold _convert_from_field_strings.
  split; [|split].
  - split.
    + intros [d Hd]. now apply (fill_returned loads nested l ∅ d).
    + apply fill_returns.
  - intros [d Hd] fs Hin.
    destruct (fill_returned loads nested l ∅ d Hd fs Hin) as [v Hv].
    destruct (mem ":" fs) eqn:Hm; [reflexivity|].
    apply index_mem, (get_value_value_error loads nested) in Hm.
    congruence.
  - intros H. apply fill_value_error in H as (fs & Hin & Hbad).
    exists fs. split; [assumption|]. now apply index_mem.
Qed.

(** X4: the keys of the mapping [_convert_from_field_strings] returns are
    the keys of the field strings, no more and no fewer. *)
Theorem converted_keys :
  forall loads nested field_strings d,
    _convert_from_field_strings loads nested field_strings
    = Some (inr d) ->
    dom d = list_to_set (map _get_key field_strings).
Proof.
  intros loads nested l d H. unfold _convert_from_field_strings in H.
  apply fill_dom in H. rewrite H, dom_empty_L. apply union_empty_l_L.
Qed.

Lemma converted_keys_witness :
  dom ({[ "a" := VInt 1; "b" := VInt 2 ]} : gmap string value)
  = list_to_set (map _get_key ["a:1"; "b:2"]).
Proof.
  apply (converted_keys Json.loads convert). vm_compute. reflexivity.
Defined.

(** X5: when several field strings have the same key, the mapping holds
    the value of the last of them. *)
Theorem last_field_of_a_key_wins :
  forall loads nested before fs after d v,
    _convert_from_field_strings loads nested (before ++ fs :: after)%list
    = Some (inr d) ->
    (forall g, In g after -> _get_key g <> _get_key fs) ->
    _get_value loads nested fs = Some (inr v) ->
    d !! _get_key fs = Some v.
Proof.
  intros loads nested before fs after d v H Hk Hv.
  unfold _convert_from_field_strings in H.
  eapply fill_last_wins; eassumption.
Qed.

Lemma last_field_of_a_key_wins_witness :
  ({[ "a" := VInt 2; "b" := VInt 3 ]} : gmap string value) !! _get_key "a:2"
  = Some (VInt 2).
Proof.
  apply (last_field_of_a_key_wins Json.loads convert ["a:1"] "a:2" ["b:3"]).
  - vm_compute. reflexivity.
  - intros g [<-|[]]. vm_compute. discriminate.
  - vm_compute. reflexivity.
Defined.

(** X6: [_clean] strips a wrapper: of a name free of [':'] and ['('], an
    opening parenthesis, a body that holds a [':'], a closing parenthesis and
    a tail free of [')'], it keeps the body. *)
Theorem clean_strips_wrapper :
  forall name body tail,
    mem ":" name = false -> mem "(" name = false ->
    mem ":" body = true -> mem ")" tail = false ->
    _clean (name ++ "(" ++ body ++ ")" ++ tail) = body.
Proof.
  intros name body tail Hn1 Hn2 Hb Ht.
  apply mem_false_first_pos in Hn1, Hn2, Ht.
  unfold mem in Hb. destruct (first_pos ":" body) as [i|] eqn:Hi; [|discriminate].
  assert (Hlast : last_pos ")" (name ++ "(" ++ body ++ ")" ++ tail)
                  = Some (String.length (name ++ "(") + String.length body)%nat).
  { rewrite <- append_assoc, last_pos_append, last_pos_append.
    change (")" ++ tail) with (String ")" tail).
    rewrite (last_pos_head_only ")" tail (last_pos_none _ _ Ht)).
    f_equal. lia. }
  unfold _clean, index, rindex.
  change ("(" ++ body ++ ")" ++ tail) with (String "(" (body ++ ")" ++ tail)).
  rewrite (first_pos_past_mark ":" "(" name _ i Hn1 eq_refl
             (first_pos_append_some ":" body _ i Hi)).
  rewrite (first_pos_at_mark "(" name _ Hn2).
  change (String "(" (body ++ ")" ++ tail)) with ("(" ++ body ++ ")" ++ tail).
  rewrite Hlast.
  destruct (Z.ltb_spec (Z.of_nat (String.length name))
              (Z.of_nat (String.length name + S i))) as [_|Hge]; [|lia].
  rewrite <- append_assoc.
  replace (Z.of_nat (String.length name) + 1)
    with (Z.of_nat (String.length (name ++ "(")))
    by (rewrite length_append; simpl; lia).
  apply slice_middle.
Qed.

Lemma clean_strips_wrapper_witness :
  _clean ("Request" ++ "(" ++ "ids:[1,2,3]" ++ ")" ++ "") = "ids:[1,2,3]".
Proof. apply (clean_strips_wrapper "Request" "ids:[1,2,3]" ""); reflexivity. Defined.

(** ** Facts about the keys of fields *)

Module KeyFacts.

Lemma slice_head (a b : string) :
  slice (a ++ b) 0 (Z.of_nat (String.length a)) = a.
Proof.
  pose proof (slice_middle "" a b) as H. simpl in H. exact H.
Qed.

Lemma slice_from_after (a b : string) :
  slice_from (a ++ b) (Z.of_nat (String.length a)) = b.
Proof.
  unfold slice_from, len. rewrite clamp_id by (rewrite length_append; lia).
  rewrite Nat2Z.id. apply drop_exact.
Qed.

Lemma get_key_plain (key rest : string) :
  mem ":" key = false -> mem "(" key = false ->
  _get_key (key ++ ":" ++ rest) = key.
Proof.
  intros Hc Hp. apply mem_false_first_pos in Hc, Hp.
  unfold _get_key, find, find_in.
  change (":" ++ rest) with (String ":" rest).
  rewrite (first_pos_at_mark ":" key rest Hc), slice_head, Hp.
  apply slice_head.
Qed.

Lemma get_key_wrapped (wrapper key rest : string) :
  mem ":" wrapper = false -> mem "(" wrapper = false ->
  mem ":" key = false ->
  _get_key (wrapper ++ "(" ++ key ++ ":" ++ rest) = key.
Proof.
  intros Hwc Hwp Hc. apply mem_false_first_pos in Hwc, Hwp, Hc.
  set (front := wrapper ++ String "(" key).
  assert (Hs : wrapper ++ "(" ++ key ++ ":" ++ rest
               = front ++ String ":" rest).
  { unfold front. now rewrite !append_assoc. }
  assert (Hfront : first_pos ":" front = None).
  { unfold front. rewrite (first_pos_append_none ":" wrapper _ Hwc).
    simpl. now rewrite Hc. }
  assert (Hparen : first_pos "(" front = Some (String.length wrapper)).
  { unfold front. now apply first_pos_at_mark. }
  unfold _get_key, find, find_in. rewrite Hs.
  rewrite (first_pos_at_mark ":" front rest Hfront), slice_head, Hparen.
  unfold len. rewrite clamp_id by lia.
  replace (front ++ String ":" rest)
    with ((wrapper ++ "(") ++ key ++ ":" ++ rest)
    by (unfold front; now rewrite !append_assoc).
  replace (0 + Z.of_nat (String.length wrapper) + 1)
    with (Z.of_nat (String.length (wrapper ++ "(")))
    by (rewrite length_append; simpl; lia).
  replace (Z.of_nat (String.length front))
    with (Z.of_nat (String.length (wrapper ++ "(") + String.length key))
    by (unfold front; rewrite !length_append; simpl; lia).
  apply slice_middle.
Qed.

End KeyFacts.
Import KeyFacts.

(** X7: the key of a field is the text before its first [':'], from after the
    first ['('] of that text when it has one. *)
Theorem get_key_before_colon :
  (forall key rest,
     mem ":" key = false -> mem "(" key = false ->
     _get_key (key ++ ":" ++ rest) = key)
  /\ (forall wrapper key rest,
        mem ":" wrapper = false -> mem "(" wrapper = false ->
        mem ":" key = false ->
        _get_key (wrapper ++ "(" ++ key ++ ":" ++ rest) = key).
Proof. split; [apply get_key_plain | apply get_key_wrapped]. Qed.

Lemma get_key_before_colon_witness :
  _get_key ("ids" ++ ":" ++ "[1,2,3]") = "ids"
  /\ _get_key ("Request" ++ "(" ++ "ids" ++ ":" ++ "[1,2,3])") = "ids".
Proof.
  split.
  - apply (proj1 get_key_before_colon "ids" "[1,2,3]"); reflexivity.
  - apply (proj2 get_key_before_colon "Request" "ids" "[1,2,3])"); reflexivity.
Defined.

(** X8: one field string with a key free of [':'] and ['('] and a value
    text free of ['('] converts to the mapping of the key to the JSON
    reading of the text, and to the text itself when the decoder raises
    [ValueError]; another exception of the decoder is passed on.  The
    converter for nested literals is not called. *)
Theorem single_field_converts :
  forall loads nested key text,
    mem ":" key = false -> mem "(" key = false -> mem "(" text = false ->
    (forall v,
       loads text = inr v ->
       _convert_from_field_strings loads nested [key ++ ":" ++ text]
       = Some (inr {[ key := v ]}))
    /\ (loads text = inl ValueError ->
        _convert_from_field_strings loads nested [key ++ ":" ++ text]
        = Some (inr {[ key := VStr text ]}))
    /\ (forall e,
          e <> ValueError ->
          loads text = inl e ->
          _convert_from_field_strings loads nested [key ++ ":" ++ text]
          = Some (inl e)).
Proof.
  intros loads nested key text Hkc Hkp Htp.
  assert (Hv : _get_value loads nested (key ++ ":" ++ text)
               = Some (literal_or_text loads text)).
  { unfold _get_value, index.
    apply mem_false_first_pos in Hkc.
    change (":" ++ text) with (String ":" text).
    rewrite (first_pos_at_mark ":" key text Hkc).
    replace (key ++ String ":" text) with ((key ++ ":") ++ text)
      by now rewrite append_assoc.
    replace (Z.of_nat (String.length key) + 1)
      with (Z.of_nat (String.length (key ++ ":")))
      by (rewrite length_append; simpl; lia).
    rewrite slice_from_after. unfold _convert_value_string, index.
    apply mem_false_first_pos in Htp. now rewrite Htp. }
  unfold _convert_from_field_strings. cbn [fill].
  rewrite Hv, (get_key_plain key text Hkc Hkp). unfold literal_or_text.
  split; [|split].
  - intros v Hl. now rewrite Hl.
  - intros Hl. now rewrite Hl.
  - intros e Hne Hl. rewrite Hl. now destruct e.
Qed.

Lemma single_field_converts_witness :
  _convert_from_field_strings Json.loads convert ["ids" ++ ":" ++ "[1,2,3]"]
  = Some (inr {[ "ids" := VList [VInt 1; VInt 2; VInt 3] ]}).
Proof.
  apply (proj1 (single_field_converts Json.loads convert "ids" "[1,2,3]"
                  eq_refl eq_refl eq_refl)).
  vm_compute. reflexivity.
Defined.

(** ** More facts about the splitter *)

Import Depth.

Module SplitterMore.

Section Loop.

Variables (opening closing : string) (delim : ascii).

Lemma loop_depth (fields_string suf : string) :
  forall (i : Z) (st : state),
    bracket_depth
      (fold_left (step fields_string opening closing delim)
                 (enumerate_from i suf) st)
    = depth_after opening closing (bracket_depth st) suf.
Proof.
  induction suf as [|c suf IH]; intros i st; [reflexivity|].
  cbn [enumerate_from fold_left depth_after]. rewrite IH.
  unfold step.
  destruct (mem c opening); [reflexivity|].
  destruct (mem c closing); [reflexivity|].
  now destruct (Ascii.eqb c delim && (bracket_depth st =? 0)).
Qed.

(** A delimiter that follows a text on which the depth is back at zero cuts
    there: the pieces are those of the text, then those of what follows. *)
Lemma pieces_cut (a b : string) :
  mem delim opening = false -> mem delim closing = false ->
  forall depth cur,
    depth_after opening closing depth a = 0 ->
    pieces opening closing delim depth cur (a ++ String delim b)
    = (pieces opening closing delim depth cur a
       ++ pieces opening closing delim 0 "" b)%list.
Proof.
  intros Ho Hc. induction a as [|c a IH]; intros depth cur Hd.
  - simpl in Hd. subst depth. rewrite append_nil_l. cbn [pieces].
    now rewrite Ho, Hc, Ascii.eqb_refl.
  - rewrite append_cons. cbn [pieces depth_after] in *.
    destruct (mem c opening); [now apply IH|].
    destruct (mem c closing); [now apply IH|].
    destruct (Ascii.eqb c delim && (depth =? 0)).
    + rewrite IH by assumption. reflexivity.
    + now apply IH.
Qed.

(** Below depth zero, and with no opening character left, nothing is cut
    any more. *)
Lemma pieces_below_zero (s : string) :
  (forall c, mem c s = true -> mem c opening = false) ->
  forall depth cur,
    depth < 0 ->
    pieces opening closing delim depth cur s = [cur ++ s].
Proof.
  induction s as [|c s IH]; intros Hs depth cur Hd.
  - simpl. now rewrite append_nil_r.
  - assert (Hc : mem c opening = false).
    { apply Hs. now rewrite mem_cons, Ascii.eqb_refl. }
    assert (Hrest : forall x, mem x s = true -> mem x opening = false).
    { intros x Hx. apply Hs. rewrite mem_cons, Hx. apply orb_true_r. }
    cbn [pieces]. rewrite Hc, <- (append_snoc cur c s).
    destruct (mem c closing); [apply IH; [assumption|lia]|].
    destruct (Z.eqb_spec depth 0) as [->|_]; [lia|].
    rewrite andb_false_r. now apply IH.
Qed.

(** With no opening and no closing character in it, a text is cut at every
    delimiter. *)
Lemma pieces_flat (s : string) :
  (forall c, mem c s = true -> mem c opening = false /\ mem c closing = false) ->
  forall cur,
    length (pieces opening closing delim 0 cur s)
    = S (count_occ Ascii.ascii_dec (list_ascii_of_string s) delim).
Proof.
  induction s as [|c s IH]; intros Hs cur; [reflexivity|].
  destruct (Hs c) as [Ho Hc]; [now rewrite mem_cons, Ascii.eqb_refl|].
  assert (Hrest : forall x, mem x s = true ->
                            mem x opening = false /\ mem x closing = false).
  { intros x Hx. apply Hs. rewrite mem_cons, Hx. apply orb_true_r. }
  cbn [pieces list_ascii_of_string count_occ]. rewrite Ho, Hc.
  destruct (Ascii.eqb_spec c delim) as [->|Hne]; simpl.
  - destruct (Ascii.ascii_dec delim delim); [|congruence].
    now rewrite IH.
  - destruct (Ascii.ascii_dec c delim); [congruence|]. now apply IH.
Qed.

End Loop.

Lemma _loop_depth (s : string) :
  bracket_depth (fold_left (_step s) (enumerate s) init)
  = depth_after "<" ">" 0 s.
Proof.
  etransitivity; [|exact (loop_depth "<" ">" "," s s 0 init)].
  f_equal. unfold enumerate.
  generalize init. induction (enumerate_from 0 s) as [|ic l IH]; intros st.
  - reflexivity.
  - simpl. now rewrite _step_step, IH.
Qed.

End SplitterMore.
Import SplitterMore.

(** X9: when the depth counter is back at zero at the end of a text, a comma
    after the text cuts there: the substrings of the whole are those of the
    text followed by those of what comes after the comma. *)
Theorem split_at_balanced_comma :
  forall a b,
    bracket_depth (fold_left (_step a) (enumerate a) init) = 0 ->
    _split_fields_string (a ++ "," ++ b)
    = (_split_fields_string a ++ _split_fields_string b)%list.
Proof.
  intros a b H. rewrite _loop_depth in H.
  rewrite !_split_split, !split_pieces.
  change ("," ++ b) with (String "," b).
  now apply pieces_cut.
Qed.

Lemma split_at_balanced_comma_witness :
  _split_fields_string ("1:map<string,i32> a" ++ "," ++ "2:i32 b")
  = (_split_fields_string "1:map<string,i32> a"
     ++ _split_fields_string "2:i32 b")%list.
Proof. apply (split_at_balanced_comma "1:map<string,i32> a" "2:i32 b"). reflexivity. Defined.

(** X10: the depth counter is not kept from going below zero: after a closing
    bracket with no opening bracket before it, and none after it, no comma
    separates any more and the whole text is one substring. *)
Theorem split_after_stray_closing :
  forall t,
    mem "<" t = false ->
    _split_fields_string (">" ++ t) = [">" ++ t].
Proof.
  intros t Ht. rewrite _split_split, split_pieces.
  change (">" ++ t) with (String ">" t). cbn [pieces].
  change (mem ">" "<") with false. change (mem ">" ">") with true.
  cbn iota. rewrite append_nil_l.
  apply pieces_below_zero; [|lia].
  intros c Hc. rewrite mem_single.
  destruct (Ascii.eqb_spec c "<") as [->|]; [congruence|reflexivity].
Qed.

Lemma split_after_stray_closing_witness :
  _split_fields_string (">" ++ "1:i32 a,2:i32 b") = [">" ++ "1:i32 a,2:i32 b"].
Proof. apply (split_after_stray_closing "1:i32 a,2:i32 b"). reflexivity. Defined.

(** X11: a text with no angle bracket is cut at every comma: it gives one
    substring more than it has commas. *)
Theorem split_without_brackets :
  forall s,
    mem "<" s = false -> mem ">" s = false ->
    length (_split_fields_string s)
    = S (count_occ Ascii.ascii_dec (list_ascii_of_string s) ","%char).
Proof.
  intros s Ho Hc. rewrite _split_split, split_pieces.
  apply pieces_flat. intros c Hm. rewrite !mem_single.
  split.
  - destruct (Ascii.eqb_spec c "<") as [->|]; [congruence|reflexivity].
  - destruct (Ascii.eqb_spec c ">") as [->|]; [congruence|reflexivity].
Qed.

Lemma split_without_brackets_witness :
  length (_split_fields_string "1:i32 a,2:i32 b,3:i32 c")
  = S (count_occ Ascii.ascii_dec
         (list_ascii_of_string "1:i32 a,2:i32 b,3:i32 c") ","%char).
Proof. apply (split_without_brackets "1:i32 a,2:i32 b,3:i32 c"); reflexivity. Defined.

(** ** Facts about dictionaries built from lists of pairs *)

Module DictFacts.

Section OfList.

Context {V : Type}.

Lemma of_list_fold (l : list (string * V)) :
  forall m : gmap string V,
    fold_left (fun m kv => <[kv.1 := kv.2]> m) l m
    = fold_left (fun m kv => <[kv.1 := kv.2]> m) l ∅ ∪ m.
Proof.
  induction l as [|[k v] l IH]; intros m; simpl.
  - now rewrite (left_id_L ∅ (∪)).
  - rewrite (IH (<[k:=v]> m)), (IH (<[k:=v]> ∅)).
    rewrite <- (assoc_L (∪)). f_equal.
    now rewrite insert_union_singleton_l, insert_empty.
Qed.

Lemma of_list_snoc (l : list (string * V)) (k : string) (v : V) :
  Dict.of_list (l ++ [(k, v)]) = <[k := v]> (Dict.of_list l).
Proof. unfold Dict.of_list. now rewrite fold_left_app. Qed.

Lemma of_list_app (l1 l2 : list (string * V)) :
  Dict.of_list (l1 ++ l2) = Dict.of_list l2 ∪ Dict.of_list l1.
Proof.
  unfold Dict.of_list. rewrite fold_left_app. apply of_list_fold.
Qed.

Lemma of_list_absent (l : list (string * V)) (k : string) :
  (forall kv, In kv l -> kv.1 <> k) -> Dict.of_list l !! k = None.
Proof.
  induction l as [|[k' v'] l IH] using rev_ind; intros H; [reflexivity|].
  rewrite of_list_snoc, lookup_insert_ne.
  - apply IH. intros kv Hin. apply H. apply in_or_app. now left.
  - apply (H (k', v')). apply in_or_app. right. now left.
Qed.

(** The pair that comes last among those of a key is the one kept. *)
Lemma of_list_last (l1 l2 : list (string * V)) (k : string) (v : V) :
  (forall kv, In kv l2 -> kv.1 <> k) ->
  Dict.of_list (l1 ++ (k, v) :: l2) !! k = Some v.
Proof.
  intros H. change ((k, v) :: l2) with ([(k, v)] ++ l2)%list.
  rewrite app_assoc, of_list_app, lookup_union_r by now apply of_list_absent.
  rewrite of_list_snoc. apply lookup_insert_eq.
Qed.

Lemma of_list_dom (l : list (string * V)) :
  dom (Dict.of_list l) = list_to_set (map fst l).
Proof.
  induction l as [|[k v] l IH] using rev_ind; [apply dom_empty_L|].
  rewrite of_list_snoc, dom_insert_L, IH, map_app, list_to_set_app_L.
  simpl. rewrite (right_id_L ∅ (∪)). apply (comm_L (∪)).
Qed.

End OfList.

End DictFacts.

Import DictFacts.

(** ** Facts about what a match took from the text *)

Import Trace.

Module TraceFacts.

Lemma rep_greedy_trace {R : Type} (c : ascii -> bool) (s : string) :
  forall (min : nat) (pv : option ascii) (k : pos -> option R) (v : R),
    rep_greedy c min pv s k = Some v ->
    exists p' run, k p' = Some v /\ s = run ++ rest p'
                   /\ (min <= String.length run)%nat
                   /\ all_in c run = true.
Proof.
  induction s as [|a s IH]; intros min pv k v H; simpl in H.
  - destruct min; [|discriminate]. exists (mkPos pv ""), "". auto.
  - assert (Hstop : match min with
                    | O => k (mkPos pv (String a s))
                    | S _ => None
                    end = Some v ->
                    exists p' run, k p' = Some v /\ String a s = run ++ rest p'
                                   /\ (min <= String.length run)%nat
                                   /\ all_in c run = true).
    { destruct min; [|discriminate]. intros Hk.
      exists (mkPos pv (String a s)), "". auto. }
    destruct (c a) eqn:Hc; [|auto].
    apply orelse_some in H as [H|H]; [|auto].
    apply IH in H as (p' & run & Hk & Hs & Hm & Ha).
    exists p', (String a run). split; [assumption|]. split; [|split].
    + rewrite append_cons. now f_equal.
    + simpl. lia.
    + simpl. now rewrite Hc.
Qed.

Lemma rep_lazy_trace {R : Type} (c : ascii -> bool) (s : string) :
  forall (min : nat) (pv : option ascii) (k : pos -> option R) (v : R),
    rep_lazy c min pv s k = Some v ->
    exists p' run, k p' = Some v /\ s = run ++ rest p'
                   /\ (min <= String.length run)%nat
                   /\ all_in c run = true.
Proof.
  induction s as [|a s IH]; intros min pv k v H; simpl in H.
  - destruct min; [|discriminate]. exists (mkPos pv ""), "". auto.
  - assert (Hstop : match min with
                    | O => k (mkPos pv (String a s))
                    | S _ => None
                    end = Some v ->
                    exists p' run, k p' = Some v /\ String a s = run ++ rest p'
                                   /\ (min <= String.length run)%nat
                                   /\ all_in c run = true).
    { destruct min; [|discriminate]. intros Hk.
      exists (mkPos pv (String a s)), "". auto. }
    destruct (c a) eqn:Hc; [|auto].
    apply orelse_some in H as [H|H]; [auto|].
    apply IH in H as (p' & run & Hk & Hs & Hm & Ha).
    exists p', (String a run). split; [assumption|]. split; [|split].
    + rewrite append_cons. now f_equal.
    + simpl. lia.
    + simpl. now rewrite Hc.
Qed.

Lemma run_trace {R : Type} (r : regex) :
  forall (p : pos) (cs : caps) (k : pos -> caps -> option R) (v : R),
    run r p cs k = Some v ->
    exists p' cs', trace r p cs p' cs' /\ k p' cs' = Some v.
Proof.
  induction r as [| |s|c|g min c|r1 IH1|r1 IH1 r2 IH2|n r1 IH1|r1 IH1 r2 IH2];
    intros p cs k v H; simpl in H.
  - exists p, cs. simpl. auto.
  - destruct (at_bol p) eqn:Hb; [|discriminate]. exists p, cs. simpl. auto.
  - destruct (eat s p) as [p'|] eqn:He; [|discriminate].
    exists p', cs. simpl. auto.
  - destruct (rest p) as [|a s'] eqn:Hr; [discriminate|].
    destruct (c a) eqn:Hc; [|discriminate].
    exists (mkPos (Some a) s'), cs. simpl. eauto 10.
  - destruct g.
    + apply rep_greedy_trace in H as (p' & run & Hk & Hs & Hm & Ha).
      exists p', cs. simpl. eauto 10.
    + apply rep_lazy_trace in H as (p' & run & Hk & Hs & Hm & Ha).
      exists p', cs. simpl. eauto 10.
  - apply orelse_some in H as [H|H].
    + apply IH1 in H as (p' & cs' & Hr & Hk). exists p', cs'. simpl. auto.
    + exists p, cs. simpl. auto.
  - apply orelse_some in H as [H|H].
    + apply IH1 in H as (p' & cs' & Hr & Hk). exists p', cs'. simpl. auto.
    + apply IH2 in H as (p' & cs' & Hr & Hk). exists p', cs'. simpl. auto.
  - apply IH1 in H as (p' & cs' & Hr & Hk).
    exists p', ((n, consumed p p') :: cs'). simpl. eauto.
  - apply IH1 in H as (p1 & cs1 & Hr1 & H).
    apply IH2 in H as (p' & cs' & Hr2 & Hk).
    exists p', cs'. simpl. eauto.
Qed.

(** Every tuple of captures [findall] works from has a trace. *)
Lemma matches_trace (r : regex) (s : string) (cs : caps) :
  In cs (matches r s) -> exists p p', trace r p [] p' cs.
Proof.
  intros H. apply scan_matches in H as (p & p' & Hm).
  apply run_trace in Hm as (p1 & cs1 & Hr & [= -> ->]). eauto.
Qed.

Lemma all_in_append (c : ascii -> bool) (a b : string) :
  all_in c (a ++ b) = all_in c a && all_in c b.
Proof.
  induction a as [|x a IH]; [reflexivity|].
  rewrite append_cons. simpl. now rewrite IH, andb_assoc.
Qed.

Lemma all_in_none_of (set s : string) (a : ascii) :
  all_in (none_of set) s = true -> mem a set = true -> mem a s = false.
Proof.
  intros Hs Ha. induction s as [|x s IH]; [reflexivity|].
  simpl in Hs. apply andb_prop in Hs as [Hx Hs].
  rewrite mem_cons, (IH Hs), orb_false_r.
  destruct (Ascii.eqb_spec x a) as [->|]; [|reflexivity].
  unfold none_of in Hx. now rewrite Ha in Hx.
Qed.

Lemma nonempty_length (s : string) : (1 <= String.length s)%nat -> s <> "".
Proof. destruct s; simpl; [lia|discriminate]. Qed.

End TraceFacts.

Import TraceFacts.

(** ** The shape of the block and enum patterns *)

Module ShapeFacts.

Ltac open_trace H :=
  cbn [trace cat fold_right] in H;
  repeat match goal with
         | H : exists _, _ |- _ => destruct H
         | H : _ /\ _ |- _ => destruct H
         | H : _ \/ _ |- _ => destruct H
         end.

(** A match of a block pattern with keyword text [kw]: its two groups. *)
Lemma block_trace (kw : string) (p p' : pos) (cs : caps) :
  trace (cat [Bol; Grp 1 (cat [Rep false 0 blank; Lit kw;
                               Grp 2 (Rep true 1 is_word);
                               Rep true 1 (none_of "}"); Lit "}"])])
        p [] p' cs ->
  exists blanks body,
    group cs 1 = blanks ++ kw ++ group cs 2 ++ body ++ "}"
    /\ all_in blank blanks = true
    /\ group cs 2 <> ""
    /\ all_in is_word (group cs 2) = true
    /\ body <> ""
    /\ mem "}" body = false.
Proof.
  intros H. open_trace H. subst. cbn [group Nat.eqb].
  match goal with
  | H1 : rest ?a = ?blanks ++ rest ?b, H2 : eat kw ?b = Some ?c,
    H3 : rest ?c = ?name ++ rest ?d, H4 : rest ?d = ?body ++ rest ?e,
    H5 : eat "}" ?e = Some ?f |- _ =>
      exists blanks, body;
      apply eat_rest in H2, H5;
      rewrite (consumed_append name c d H3);
      rewrite (consumed_append (blanks ++ kw ++ name ++ body ++ "}") a f)
        by (rewrite H1, H2, H3, H4, H5; now rewrite !append_assoc)
  end.
  repeat split; try assumption.
  - now apply nonempty_length.
  - now apply nonempty_length.
  - eapply all_in_none_of; [eassumption|reflexivity].
Qed.

Lemma enum_trace (p p' : pos) (cs : caps) :
  trace enums_regex p [] p' cs ->
  group cs 1 <> "" /\ all_in is_word (group cs 1) = true.
Proof.
  intros H. unfold enums_regex in H. open_trace H. subst.
  cbn [group Nat.eqb].
  match goal with
  | H3 : rest ?c = ?name ++ rest ?d, Hw : all_in is_word ?name = true |- _ =>
      rewrite (consumed_append name c d H3)
  end.
  split; [now apply nonempty_length|assumption].
Qed.

End ShapeFacts.

Import ShapeFacts.

(** ** The shape of the field pattern *)

Module FieldShape.

Lemma all_in_and (f g : ascii -> bool) (s : string) :
  all_in (fun a => f a && g a) s = true ->
  all_in f s = true /\ all_in g s = true.
Proof.
  induction s as [|a s IH]; simpl; [auto|].
  intros H. apply andb_prop in H as [Ha Hs]. apply andb_prop in Ha as [Hf Hg].
  destruct (IH Hs) as [H1 H2]. now rewrite Hf, Hg, H1, H2.
Qed.

Lemma all_in_not_char (c : ascii) (s : string) :
  all_in (fun a => negb (Ascii.eqb a c)) s = true -> mem c s = false.
Proof.
  induction s as [|a s IH]; simpl; [reflexivity|].
  intros H. apply andb_prop in H as [Ha Hs].
  rewrite mem_cons, (IH Hs). now destruct (Ascii.eqb a c).
Qed.

Ltac use_runs :=
  repeat match goal with
         | H : rest ?x = ?run ++ rest ?y |- context [consumed ?x ?y] =>
             rewrite (consumed_append run x y H)
         | H : rest ?x = String ?a ?s |- context [consumed ?x (mkPos ?pv ?s)] =>
             rewrite (consumed_one a s x pv H)
         end.

(** What a match of the field pattern can have captured. *)
Lemma fields_regex_trace (p p' : pos) (cs : caps) :
  trace fields_regex p [] p' cs ->
  (exists a, group cs 1 = String a ""
             /\ (is_digit a || Ascii.eqb a "+") = true)
  /\ mem nl (group cs 3) = false /\ mem "=" (group cs 3) = false
  /\ group cs 4 <> "" /\ all_in is_word (group cs 4) = true
  /\ mem "," (group cs 5) = false
  /\ all_in (fun a => negb (is_space a)) (group cs 5) = true.
Proof.
  intros H. unfold fields_regex in H. open_trace H; subst;
    cbn [group Nat.eqb]; use_runs;
    repeat match goal with
           | H : all_in (fun a => negb (Ascii.eqb a ",") && negb (is_space a)) _
                 = true |- _ =>
               apply all_in_and in H as [? ?]
           end;
    (split; [eexists; split; [reflexivity|assumption]|]);
    (split; [first [reflexivity
                   | eapply all_in_none_of; [eassumption|reflexivity]]|]);
    (split; [first [reflexivity
                   | eapply all_in_none_of; [eassumption|reflexivity]]|]);
    (split; [now apply nonempty_length|]);
    (split; [assumption|]);
    (split; [first [reflexivity | now apply all_in_not_char]|]);
    first [reflexivity | assumption].
Qed.

End FieldShape.

Import FieldShape.

(** ** Facts about definitions and fields *)

Module BlockFacts.

Lemma block_definition_shape (kw : string) (r : regex) (content : string)
    (definition name : string) :
  r = cat [Bol; Grp 1 (cat [Rep false 0 blank; Lit kw;
                            Grp 2 (Rep true 1 is_word);
                            Rep true 1 (none_of "}"); Lit "}"])] ->
  In (definition, name) (findall2 r content) ->
  exists blanks body,
    definition = blanks ++ kw ++ name ++ body ++ "}"
    /\ all_in blank blanks = true
    /\ name <> "" /\ all_in is_word name = true
    /\ body <> "" /\ mem "}" body = false.
Proof.
  intros -> Hin. unfold findall2 in Hin. rewrite in_map_iff in Hin.
  destruct Hin as (cs & [= <- <-] & Hin).
  apply matches_trace in Hin as (p & p' & Ht).
  now apply block_trace in Ht.
Qed.

Lemma definitions_lookup (r : regex) (content name definition : string) :
  Dict.of_list (map (fun '(definition, name) => (name, definition))
                    (findall2 r content)) !! name = Some definition ->
  In (definition, name) (findall2 r content).
Proof.
  intros H. apply of_list_lookup in H. rewrite in_map_iff in H.
  destruct H as ([d n] & [= -> ->] & Hin). exact Hin.
Qed.

Lemma field_of_match_shape (m : field_match) :
  (exists p p' cs, trace fields_regex p [] p' cs
                   /\ m = (group cs 1, group cs 2, group cs 3, group cs 4,
                           group cs 5)) ->
  let f := _construct_field_from_field_match m in
  (exists a, ThriftStruct.Field.index f = String a ""
             /\ (is_digit a || Ascii.eqb a "+") = true)
  /\ ThriftStruct.Field.name f <> ""
  /\ all_in is_word (ThriftStruct.Field.name f) = true
  /\ mem nl (ThriftStruct.Field.field_type f) = false
  /\ mem "=" (ThriftStruct.Field.field_type f) = false
  /\ (forall d, ThriftStruct.Field.default f = Some d ->
                d <> "" /\ mem "," d = false
                /\ all_in (fun a => negb (is_space a)) d = true).
Proof.
  intros (p & p' & cs & Ht & ->).
  apply fields_regex_trace in Ht as (Hi & Hn1 & Hn2 & Hne & Hw & Hc & Hs).
  cbn.
  assert (Hd : forall d,
             (if len (group cs 5) =? 0 then None else Some (group cs 5))
             = Some d ->
             d <> "" /\ mem "," d = false
             /\ all_in (fun a => negb (is_space a)) d = true).
  { intros d Hd. destruct (group cs 5) as [|a d'] eqn:E; [discriminate|].
    cbn in Hd. injection Hd as <-. repeat split; [discriminate|exact Hc|exact Hs]. }
  exact (conj Hi (conj Hne (conj Hw (conj Hn1 (conj Hn2 Hd))))).
Qed.

Lemma findall5_trace (s : string) (m : field_match) :
  In m (findall5 fields_regex s) ->
  exists p p' cs, trace fields_regex p [] p' cs
                  /\ m = (group cs 1, group cs 2, group cs 3, group cs 4,
                          group cs 5).
Proof.
  unfold findall5. rewrite in_map_iff. intros (cs & <- & Hin).
  apply matches_trace in Hin as (p & p' & Ht). eauto 10.
Qed.

End BlockFacts.
Import BlockFacts.

(** X12: a struct definition, as the parser keeps it, is a run of blanks, the
    keyword, the name, a body free of closing braces and one closing brace:
    a block ends at the first closing brace after its name.  The same holds
    for a service definition, and every name, an enum name too, is a
    non-empty run of word characters. *)
Theorem block_definition_ends_at_first_brace :
  (forall content name definition,
     _parse_struct_definitions content !! name = Some definition ->
     exists blanks body,
       definition = blanks ++ "struct " ++ name ++ body ++ "}"
       /\ all_in blank blanks = true
       /\ name <> "" /\ all_in is_word name = true
       /\ body <> "" /\ mem "}" body = false)
  /\ (forall content name definition,
        _parse_service_definitions content !! name = Some definition ->
        exists blanks body,
          definition = blanks ++ "service " ++ name ++ body ++ "}"
          /\ all_in blank blanks = true
          /\ name <> "" /\ all_in is_word name = true
          /\ body <> "" /\ mem "}" body = false)
  /\ (forall content name,
        name ∈ _parse_enums content ->
        name <> "" /\ all_in is_word name = true).
Proof.
  split; [|split].
  - intros content name definition H. apply definitions_lookup in H.
    now apply (block_definition_shape "struct " structs_regex content).
  - intros content name definition H. apply definitions_lookup in H.
    now apply (block_definition_shape "service " services_regex content).
  - intros content name H. unfold _parse_enums in H.
    apply elem_of_list_to_set, list_elem_of_In in H.
    unfold findall1 in H. rewrite in_map_iff in H.
    destruct H as (cs & <- & Hin).
    apply matches_trace in Hin as (p & p' & Ht). now apply enum_trace in Ht.
Qed.

Lemma block_definition_ends_at_first_brace_witness :
  exists definition blanks body,
    _parse_struct_definitions idl_with_endpoint !! "Point" = Some definition
    /\ definition = blanks ++ "struct " ++ "Point" ++ body ++ "}"
    /\ all_in blank blanks = true
    /\ "Point" <> "" /\ all_in is_word "Point" = true
    /\ body <> "" /\ mem "}" body = false.
Proof.
  destruct (_parse_struct_definitions idl_with_endpoint !! "Point")
    as [definition|] eqn:H; [|vm_compute in H; discriminate].
  exists definition.
  destruct (proj1 block_definition_ends_at_first_brace
              idl_with_endpoint "Point" definition H) as (blanks & body & Hs).
  exists blanks, body. split; [reflexivity|exact Hs].
Defined.

(** X13: every field of a struct body is kept under its own name, a non-empty
    run of word characters; its index is one character, a digit or a plus
    sign; its type has no newline and no [=]; its default, when it has
    one, is a non-empty text with no comma and no white space. *)
Theorem struct_field_shape :
  forall definition key field,
    _parse_fields_from_struct_definition definition !! key = Some field ->
    ThriftStruct.Field.name field = key
    /\ key <> "" /\ all_in is_word key = true
    /\ (exists a, ThriftStruct.Field.index field = String a ""
                  /\ (is_digit a || Ascii.eqb a "+") = true)
    /\ mem nl (ThriftStruct.Field.field_type field) = false
    /\ mem "=" (ThriftStruct.Field.field_type field) = false
    /\ (forall d, ThriftStruct.Field.default field = Some d ->
                  d <> "" /\ mem "," d = false
                  /\ all_in (fun a => negb (is_space a)) d = true).
Proof.
  intros definition key field H.
  unfold _parse_fields_from_struct_definition, by_field_name in H.
  apply of_list_lookup in H. rewrite in_map_iff in H.
  destruct H as (f & [= <- ->] & Hin). rewrite in_map_iff in Hin.
  destruct Hin as (m & <- & Hin). apply findall5_trace in Hin.
  apply field_of_match_shape in Hin. cbv zeta in Hin.
  destruct Hin as (Hi & Hne & Hw & Hn1 & Hn2 & Hd). auto 10.
Qed.

Lemma struct_field_shape_witness :
  exists field,
    _parse_fields_from_struct_definition struct_unqualified !! "a" = Some field
    /\ ThriftStruct.Field.name field = "a"
    /\ mem "=" (ThriftStruct.Field.field_type field) = false.
Proof.
  eexists. split; [vm_compute; reflexivity|].
  split; apply (struct_field_shape struct_unqualified "a");
    vm_compute; reflexivity.
Defined.

(** X14: of several struct blocks, or several fields, of one name, the one
    declared last is kept. *)
Theorem later_declaration_wins :
  (forall content before definition name after,
     findall2 structs_regex content
     = (before ++ (definition, name) :: after)%list ->
     (forall d, ~ In (d, name) after) ->
     _parse_struct_definitions content !! name = Some definition)
  /\ (forall before field after,
        (forall g, In g after ->
                   ThriftStruct.Field.name g <> ThriftStruct.Field.name field) ->
        by_field_name (before ++ field :: after)
          !! ThriftStruct.Field.name field = Some field).
Proof.
  split.
  - intros content before definition name after Hf Hn.
    unfold _parse_struct_definitions. rewrite Hf, map_app. cbn [map].
    apply of_list_last. intros kv Hin. rewrite in_map_iff in Hin.
    destruct Hin as ([d n] & <- & Hin). simpl. intros ->. now apply (Hn d).
  - intros before field after Hn. unfold by_field_name.
    rewrite map_app. cbn [map]. apply of_list_last.
    intros kv Hin. rewrite in_map_iff in Hin.
    destruct Hin as (g & <- & Hin). simpl. now apply Hn.
Qed.

Lemma later_declaration_wins_witness :
  by_field_name
    ([ThriftStruct.Field.mk "1" "i32" "a" false None]
     ++ ThriftStruct.Field.mk "2" "string" "a" false None
     :: [ThriftStruct.Field.mk "3" "i32" "b" false None])
    !! "a"
  = Some (ThriftStruct.Field.mk "2" "string" "a" false None).
Proof.
  apply (proj2 later_declaration_wins
           [ThriftStruct.Field.mk "1" "i32" "a" false None]
           (ThriftStruct.Field.mk "2" "string" "a" false None)
           [ThriftStruct.Field.mk "3" "i32" "b" false None]).
  intros g [<-|[]]. discriminate.
Defined.

(** ** Facts about collecting results, and about endpoints *)

Import ResultStr.

Module CollectFacts.

Section Collect.

Context {V : Type}.

Lemma collect_cases (m : gmap string (result V)) :
  match Dict.collect m with
  | inr m' => m = inr <$> m'
  | inl e => exists k, m !! k = Some (inl e)
  end.
Proof.
  unfold Dict.collect.
  apply (map_fold_weak_ind
           (fun r m => match r with
                       | inr m' => m = inr <$> m'
                       | inl e => exists k, m !! k = Some (inl e)
                       end)).
  - now rewrite fmap_empty.
  - intros i x m0 r Hi Hr. destruct r as [e|m'].
    + destruct Hr as [k Hk]. exists k.
      rewrite lookup_insert_ne; [assumption|].
      intros Heq. subst k.
      pose proof (eq_trans (eq_sym Hi) Hk) as Hne. discriminate Hne.
    + destruct x as [e|v].
      * exists i. apply lookup_insert_eq.
      * subst m0. now rewrite fmap_insert.
Qed.

Lemma collect_raises (m : gmap string (result V)) (e : exn) :
  Dict.collect m = inl e -> exists k, m !! k = Some (inl e).
Proof. intros H. pose proof (collect_cases m) as Hc. now rewrite H in Hc. Qed.


Lemma collect_all_returned (m : gmap string (result V)) :
  (forall k x, m !! k = Some x -> exists v, x = inr v) ->
  exists m', Dict.collect m = inr m'.
Proof.
  intros H. destruct (Dict.collect m) as [e|m'] eqn:Hc; [|eauto].
  apply collect_raises in Hc as [k Hk]. apply H in Hk as [v Hv]. discriminate.
Qed.

End Collect.

End CollectFacts.
Import CollectFacts.

Module ServiceFacts.

(** The transposed columns, zipped again, are the rows. *)
Lemma zip4_rows {A B C D E F : Type} (g : D -> E) (h : E -> F)
    (rows : list (A * B * C * D)) :
  zip4 (map (fun r => r.1.1.1) rows) (map (fun r => r.1.1.2) rows)
       (map (fun r => r.1.2) rows) (map h (map g (map (fun r => r.2) rows)))
  = map (fun r => (r.1.1.1, r.1.1.2, r.1.2, h (g r.2))) rows.
Proof.
  induction rows as [|[[[a b] c] d] rows IH]; [reflexivity|].
  simpl. now rewrite IH.
Qed.

Lemma endpoints_of_matches (definition : string) :
  _parse_endpoints_from_service_definition definition
  = match findall4 endpoints_regex definition with
    | [] => inl ValueError
    | rows =>
        inr (Dict.of_list
               (map (fun r =>
                       (r.1.2,
                        ThriftService.Endpoint.mk r.1.1.2 r.1.2
                          (by_field_name (_parse_fields_from_fields_string r.2))
                          r.1.1.1))
                    rows))
    end.
Proof.
  unfold _parse_endpoints_from_service_definition.
  destruct (findall4 endpoints_regex definition) as [|r rows] eqn:Hf;
    [reflexivity|].
  unfold unzip4. rewrite zip4_rows, !map_map. reflexivity.
Qed.

Lemma endpoints_returned (definition : string)
    (endpoints : gmap string ThriftService.Endpoint.t) :
  _parse_endpoints_from_service_definition definition = inr endpoints ->
  endpoints
  = Dict.of_list
      (map (fun r =>
              (r.1.2,
               ThriftService.Endpoint.mk r.1.1.2 r.1.2
                 (by_field_name (_parse_fields_from_fields_string r.2))
                 r.1.1.1))
           (findall4 endpoints_regex definition)).
Proof.
  rewrite endpoints_of_matches.
  destruct (findall4 endpoints_regex definition); [discriminate|].
  now intros [= <-].
Qed.


Lemma endpoints_regex_trace (p p' : pos) (cs : caps) :
  trace endpoints_regex p [] p' cs ->
  (group cs 1 = "oneway" \/ group cs 1 = "")
  /\ mem nl (group cs 2) = false
  /\ group cs 3 <> "" /\ all_in is_word (group cs 3) = true
  /\ all_in (fun a => is_alpha a || is_digit a || one_of ": ,<>" a)
            (group cs 4) = true.
Proof.
  intros H. unfold endpoints_regex in H. open_trace H; subst;
    cbn [group Nat.eqb]; use_runs;
    repeat match goal with
           | H : eat _ _ = Some _ |- _ => apply consumed_eat in H
           end;
    (split; [auto|]);
    (split; [eapply all_in_none_of; [eassumption|reflexivity]|]);
    (split; [now apply nonempty_length|]); auto.
Qed.

End ServiceFacts.

Import ServiceFacts.

(** ** More properties of the IDL extractor *)


(** X16: every endpoint of a service is kept under its own name, a non-empty
    run of word characters; its one-way mark is the text [oneway] or the
    empty text; its return type has no newline; and each of its parameter
    fields is kept under the field's own name. *)
Theorem endpoint_shape :
  forall definition endpoints key endpoint,
    _parse_endpoints_from_service_definition definition = inr endpoints ->
    endpoints !! key = Some endpoint ->
    ThriftService.Endpoint.name endpoint = key
    /\ key <> "" /\ all_in is_word key = true
    /\ (ThriftService.Endpoint.oneway endpoint = "oneway"
        \/ ThriftService.Endpoint.oneway endpoint = "")
    /\ mem nl (ThriftService.Endpoint.return_type endpoint) = false
    /\ (forall n field,
          ThriftService.Endpoint.fields endpoint !! n = Some field ->
          ThriftStruct.Field.name field = n).
Proof.
  intros definition endpoints key endpoint H Hk.
  apply endpoints_returned in H. subst endpoints.
  apply of_list_lookup in Hk. rewrite in_map_iff in Hk.
  destruct Hk as (r & [= <- <-] & Hin).
  unfold findall4 in Hin. rewrite in_map_iff in Hin.
  destruct Hin as (cs & <- & Hin).
  apply matches_trace in Hin as (p & p' & Ht).
  apply endpoints_regex_trace in Ht as (H1 & H2 & H3 & H4 & _).
  cbn. repeat split; try assumption.
  intros n field Hn. unfold by_field_name in Hn.
  apply of_list_lookup in Hn. rewrite in_map_iff in Hn.
  now destruct Hn as (g & [= <- ->] & _).
Qed.

Lemma endpoint_shape_witness :
  exists endpoints endpoint,
    _parse_endpoints_from_service_definition
      (text ["service Geo {"; "  oneway void ping(1: i32 w)"; "}"])
    = inr endpoints
    /\ endpoints !! "ping" = Some endpoint
    /\ ThriftService.Endpoint.name endpoint = "ping"
    /\ (ThriftService.Endpoint.oneway endpoint = "oneway"
        \/ ThriftService.Endpoint.oneway endpoint = "").
Proof.
  destruct (_parse_endpoints_from_service_definition
              (text ["service Geo {"; "  oneway void ping(1: i32 w)"; "}"]))
    as [e|endpoints] eqn:H; [vm_compute in H; discriminate|].
  destruct (endpoints !! "ping") as [endpoint|] eqn:Hk.
  - exists endpoints, endpoint.
    destruct (endpoint_shape _ endpoints "ping" endpoint H Hk)
      as (H1 & _ & _ & H4 & _).
    split; [reflexivity|]. split; [exact Hk|]. split; assumption.
  - exfalso. vm_compute in H. injection H as <-.
    vm_compute in Hk. discriminate.
Defined.

(** X17: a parameter list gives at most one field for each substring the
    splitter cuts it into. *)
Theorem at_most_one_field_per_substring :
  forall fields_string,
    (length (_parse_fields_from_fields_string fields_string)
     <= length (_split_fields_string fields_string))%nat.
Proof.
  intros fields_string. unfold _parse_fields_from_fields_string.
  rewrite length_map.
  induction (_split_fields_string fields_string) as [|fs l IH]; [reflexivity|].
  cbn [map flat_map]. rewrite length_app.
  destruct (findall5 fields_regex (fs ++ String nl "")); simpl in *; lia.
Qed.

(** X18: [has_struct] and the struct lookup agree: the lookup returns the
    fields exactly when [has_struct] answers true, and raises [KeyError]
    exactly when it answers false; before any [parse] both raise
    [AttributeError]. *)
Theorem has_struct_agrees_with_lookup :
  forall self name,
    (has_struct self name = inr true
     <-> exists fields, get_fields_for_struct_name self name = inr fields)
    /\ (has_struct self name = inr false
        <-> get_fields_for_struct_name self name = inl (KeyError name))
    /\ (_result self = None ->
        has_struct self name = inl AttributeError
        /\ has_enum self name = inl AttributeError
        /\ get_fields_for_struct_name self name = inl AttributeError).
Proof.
  intros self name.
  unfold has_struct, has_enum, get_fields_for_struct_name, the_result, Dict.get.
  destruct (_result self) as [r|].
  - destruct (Result.structs r !! name) as [st|] eqn:Hs.
    + rewrite bool_decide_eq_true_2 by eauto.
      split; [split; [eauto|reflexivity]|].
      split; [split; discriminate|discriminate].
    + rewrite bool_decide_eq_false_2 by (intros [x Hx]; discriminate).
      split; [split; [discriminate|intros [f Hf]; discriminate]|].
      split; [split; reflexivity|discriminate].
  - split; [split; [discriminate|intros [f Hf]; discriminate]|].
    split; [split; discriminate|auto].
Qed.


(** X20: [str] of a parse result never returns a text: after the two
    comprehensions it evaluates the unbound name [enums].  When the nested
    [str] calls all return, what it raises is [NameError] for that name. *)
Theorem result_str_raises :
  forall str_struct str_service self,
    (exists e, __str__ str_struct str_service self = inl e)
    /\ ((forall s, exists t, str_struct s = inr t) ->
        (forall s, exists t, str_service s = inr t) ->
        __str__ str_struct str_service self = inl (NameError "enums")).
Proof.
  intros str_struct str_service self. unfold __str__. split.
  - destruct (Dict.collect _); [eauto|]. destruct (Dict.collect _); eauto.
  - intros Hs Hv.
    destruct (collect_all_returned (str_struct <$> Result.structs self))
      as [m1 ->].
    { intros k x Hk. rewrite lookup_fmap in Hk.
      destruct (Result.structs self !! k) as [s|]; [|discriminate].
      injection Hk as <-. apply Hs. }
    destruct (collect_all_returned (str_service <$> Result.services self))
      as [m2 ->]; [|reflexivity].
    intros k x Hk. rewrite lookup_fmap in Hk.
    destruct (Result.services self !! k) as [s|]; [|discriminate].
    injection Hk as <-. apply Hv.
Qed.

(** X21: a parse result holds a struct for exactly the names the struct
    pattern finds in the text; each struct carries the name it is kept
    under and the fields of the definition kept for that name; the enums of
    the result are exactly the names the enum pattern finds. *)
Theorem result_holds_what_patterns_find :
  forall content r,
    parse_content content = inr r ->
    (forall name,
       is_Some (Result.structs r !! name)
       <-> exists definition,
             In (definition, name) (findall2 structs_regex content))
    /\ (forall name struct,
          Result.structs r !! name = Some struct ->
          ThriftStruct.name struct = name
          /\ exists definition,
               _parse_struct_definitions content !! name = Some definition
               /\ ThriftStruct.fields struct
                  = _parse_fields_from_struct_definition definition)
    /\ (forall name,
          name ∈ Result.enums r <-> In name (findall1 enums_regex content)).
Proof.
  intros content r H. unfold parse_content in H.
  destruct (_parse_services content); [discriminate|]. injection H as <-.
  cbn [Result.structs Result.enums].
  assert (Hl : forall name,
             _parse_structs content !! name
             = (fun definition =>
                  ThriftStruct.mk name
                    (_parse_fields_from_struct_definition definition))
               <$> (_parse_struct_definitions content !! name)).
  { intros name. unfold _parse_structs.
    rewrite map_lookup_imap, lookup_fmap.
    now destruct (_parse_struct_definitions content !! name). }
  split; [|split].
  - intros name. rewrite Hl, fmap_is_Some, <- elem_of_dom.
    unfold _parse_struct_definitions. rewrite of_list_dom, map_map.
    rewrite elem_of_list_to_set, list_elem_of_In, in_map_iff. split.
    + intros ([d n] & Hn & Hin). simpl in Hn. subst n. eauto.
    + intros [d Hin]. exists (d, name). now split.
  - intros name struct Hs. rewrite Hl in Hs.
    destruct (_parse_struct_definitions content !! name) as [d|];
      [|discriminate].
    injection Hs as <-. split; [reflexivity|]. eauto.
  - intros name. unfold _parse_enums.
    now rewrite elem_of_list_to_set, list_elem_of_In.
Qed.

Lemma result_holds_what_patterns_find_witness :
  exists r,
    parse_content idl_with_endpoint = inr r
    /\ (is_Some (Result.structs r !! "Point")
        <-> exists definition,
              In (definition, "Point")
                 (findall2 structs_regex idl_with_endpoint))
    /\ ("Colour" ∈ Result.enums r
        <-> In "Colour" (findall1 enums_regex idl_with_endpoint)).
Proof.
  destruct (parse_content idl_with_endpoint) as [e|r] eqn:H;
    [vm_compute in H; discriminate|].
  exists r. split; [reflexivity|].
  destruct (result_holds_what_patterns_find idl_with_endpoint r H)
    as (H1 & _ & H3).
  split; [apply H1 | apply H3].
Defined.
